(** * A naive state machine: publish/subscribe finite-state machines

    Shallow embedding of the engine of [_posts/2024-10-17-naive-state-machine.md]:
    the [StateMachineMeta] metaclass, the [@action] and [@reaction] decorators
    and the [StateMachine] class, together with the example machine types
    [TrafficLight], [Cyclist] and [PoliceCar].

    Python objects are mutable and compared by identity, so machine instances
    live in a heap indexed by identifiers; every method threads the heap (and
    the standard output) explicitly.  An exception carries the heap as it was
    when it was raised: nothing is rolled back. *)

From stdpp Require Import base decidable countable option list strings gmap sets fin_maps.

#[local] Set Warnings "-clear-no-such-hyp".

Local Open Scope string_scope.
Local Open Scope list_scope.
Local Open Scope nat_scope.

(* ===================================================================== *)
(** ** Data model *)
(* ===================================================================== *)

(** [class State(Enum)]: a member of some enumeration.  Members of two
    enumerations are different objects even when their values coincide
    ([CyclistState.STOPPED] is not [PoliceCarState.STOPPED]). *)
Record State := mkState { st_enum : string; st_member : string }.

#[global] Instance State_eq_dec : EqDecision State.
Proof. solve_decision. Defined.

#[global] Instance State_countable : Countable State :=
  inj_countable' (λ s, (st_enum s, st_member s)) (λ p, mkState p.1 p.2)
                 (λ s, match s with mkState _ _ => eq_refl end).

(** [@dataclass class Transition] *)
Record Transition := mkTransition {
  t_source : State;
  t_destination : State;
  t_bidirectional : bool
}.

(** [@dataclass class Event].  Instances are identified by their address, a
    [nat]; keyword arguments and event metadata ([Dict[str, Any]]) are maps
    from strings. *)
Record Event := mkEvent {
  ev_name : string;
  ev_source : nat;
  ev_state : State;
  ev_meta : option (gmap string string)
}.

#[global] Instance Event_eq_dec : EqDecision Event.
Proof. solve_decision. Defined.

(** The behaviour bodies of the post are either [...] or a call of one of the
    machine's own actions ([self.stop()]); a body is a sequence of such calls. *)
Inductive Stmt := SCall (f : string).
Definition Body := list Stmt.

(** A function decorated by [@action(state, broadcast, when, unless)].
    [a_name] is [function.__name__]; methods are introduced by [def], so it is
    also the key of the function in the class namespace. *)
Record ActionFn := mkAction {
  a_name : string;
  a_state : State;
  a_broadcast : bool;
  a_when : option (gset State);
  a_unless : option (gset State);
  a_body : Body
}.

(** A function decorated by [@reaction(state, when, unless)]. *)
Record ReactionFn := mkReaction {
  r_name : string;
  r_state : State;
  r_when : option (gset State);
  r_unless : option (gset State);
  r_body : Body
}.

(** An entry of the class namespace. *)
Inductive Member :=
| MAction (a : ActionFn)
| MReaction (r : ReactionFn)
| MOther (key : string).

Definition member_name (m : Member) : string :=
  match m with
  | MAction a => a_name a
  | MReaction r => r_name r
  | MOther k => k
  end.

(** A machine type, as produced by the metaclass. *)
Record Class := mkClass {
  c_name : string;
  transitions : list Transition;
  c_namespace : list Member;
  broadcast_events : list string;
  reactions_to_state : gmap State ReactionFn
}.

(** A [StateMachine] instance. [m_extra_meta] is the optional attribute read
    by [getattr(self, "extra_meta", None)].  [consumers] is a Python set: the
    order in which [publish_event] visits it is not specified, and the model
    visits it in the order of [elements]. *)
Record Machine := mkMachine {
  m_class : Class;
  m_name : string;
  m_state : State;
  m_events : list Event;
  transitions_map : gmap State (list State);
  consumers : gset nat;
  publishers : gmap nat State;
  m_extra_meta : option (gmap string string)
}.

(** Lines written to the standard output, kept structured. [OBody] is not a
    print: it marks the entry into a decorated function body. *)
Inductive Output :=
| OStarting (name : string) (s : State)
| ORegistering (i consumer : nat)
| OCannotUnless (i : nat) (f : string) (when : gset State)
| OCannotWhen (i : nat) (f : string) (unless : gset State)
| OCannotReactUnless (i : nat) (f : string) (when : gset State)
| OCannotReactWhen (i : nat) (f : string) (unless : gset State)
| OPublishing (i : nat) (name : string) (consumer : nat)
| OProcessing (i : nat) (name : string)
| OProcessingFrom (i : nat) (name : string) (src : nat)
| OTransitioning (i : nat) (from to : State)
| OBody (i : nat) (f : string).

#[global] Instance Output_eq_dec : EqDecision Output.
Proof. solve_decision. Defined.

Record World := mkWorld {
  heap : gmap nat Machine;
  out : list Output
}.

Inductive Exn :=
| TransitionError
| DeclarationError
| AttributeError
| NoInstance.

(** Outcome of a call: normal return, an exception with the world at the point
    of the [raise], or recursion deeper than the fuel. *)
Inductive Result :=
| Ok (w : World)
| Raised (e : Exn) (w : World)
| OutOfFuel.

Definition bind (r : Result) (k : World → Result) : Result :=
  match r with
  | Ok w => k w
  | Raised e w => Raised e w
  | OutOfFuel => OutOfFuel
  end.

Definition print (o : Output) (w : World) : World :=
  mkWorld (heap w) (out w ++ [o]).

Definition set_machine (i : nat) (m : Machine) (w : World) : World :=
  mkWorld (<[i := m]> (heap w)) (out w).

Definition set_state (s : State) (m : Machine) : Machine :=
  mkMachine (m_class m) (m_name m) s (m_events m) (transitions_map m)
            (consumers m) (publishers m) (m_extra_meta m).

Definition append_event (ev : Event) (m : Machine) : Machine :=
  mkMachine (m_class m) (m_name m) (m_state m) (m_events m ++ [ev])
            (transitions_map m) (consumers m) (publishers m) (m_extra_meta m).

Definition add_consumer (j : nat) (m : Machine) : Machine :=
  mkMachine (m_class m) (m_name m) (m_state m) (m_events m) (transitions_map m)
            ({[j]} ∪ consumers m) (publishers m) (m_extra_meta m).

Definition set_publisher (p : nat) (s : State) (m : Machine) : Machine :=
  mkMachine (m_class m) (m_name m) (m_state m) (m_events m) (transitions_map m)
            (consumers m) (<[p := s]> (publishers m)) (m_extra_meta m).

(* ===================================================================== *)
(** ** The metaclass *)
(* ===================================================================== *)

(** The loop of [StateMachineMeta.__new__] over [namespace.items()]:
    [None] is the [raise Exception(...)] on a second reaction to one state. *)
Fixpoint scan_namespace (ns : list Member) (be : list string)
    (rts : gmap State ReactionFn) : option (list string * gmap State ReactionFn) :=
  match ns with
  | [] => Some (be, rts)
  | MAction a :: ns' =>
      scan_namespace ns' (if a_broadcast a then be ++ [a_name a] else be) rts
  | MReaction r :: ns' =>
      match rts !! r_state r with
      | Some _ => None
      | None => scan_namespace ns' be (<[r_state r := r]> rts)
      end
  | MOther _ :: ns' => scan_namespace ns' be rts
  end.

Definition StateMachineMeta_new (name : string) (ts : list Transition)
    (namespace : list Member) : option Class :=
  match scan_namespace namespace [] ∅ with
  | Some (be, rts) => Some (mkClass name ts namespace be rts)
  | None => None
  end.

(* ===================================================================== *)
(** ** Guards *)
(* ===================================================================== *)

(** Truth value of a set, and of an optional set ([None] is false). *)
Definition set_truthy (X : gset State) : bool := bool_decide (X ≠ ∅).

Definition opt_truthy (o : option (gset State)) : bool :=
  match o with
  | None => false
  | Some X => set_truthy X
  end.

(** [set(list(self.publishers.values()) + [self.state])] *)
Definition states_of (m : Machine) : gset State :=
  list_to_set ((map_to_list (publishers m)).*2 ++ [m_state m]).

Inductive Verdict := Allow | RejectWhen | RejectUnless.

(** [when and not when.intersection(states)] *)
Definition when_rejects (when : option (gset State)) (states : gset State) : bool :=
  match when with
  | Some W => set_truthy W && negb (set_truthy (W ∩ states))
  | None => false
  end.

(** [unless and unless.intersection(states)] *)
Definition unless_rejects (unless : option (gset State)) (states : gset State) : bool :=
  match unless with
  | Some U => set_truthy U && set_truthy (U ∩ states)
  | None => false
  end.

(** The two [if] statements shared by both decorators, in their order. *)
Definition check_guard (when unless : option (gset State)) (states : gset State)
    : Verdict :=
  if when_rejects when states then RejectWhen
  else if unless_rejects unless states then RejectUnless
  else Allow.

(* ===================================================================== *)
(** ** The engine *)
(* ===================================================================== *)

(** The calls the engine makes; each is one Python call frame. *)
Inductive Call :=
| CAction (i : nat) (f : string) (kwargs : gmap string string)
| CReaction (i : nat) (r : ReactionFn) (ev : Event)
| CBody (i : nat) (f : string) (b : Body)
| CPublish (i : nat) (ev : Event)
| CProcess (i : nat) (ev : Event)
| CInternal (i : nat) (ev : Event)
| CExternal (i : nat) (ev : Event).

(** Attribute lookup of a method on the class. *)
Fixpoint get_action (f : string) (ns : list Member) : option ActionFn :=
  match ns with
  | [] => None
  | MAction a :: ns' => if decide (a_name a = f) then Some a else get_action f ns'
  | _ :: ns' => get_action f ns'
  end.

(** [if getattr(self, "extra_meta", None): kwargs.update(self.extra_meta)] *)
Definition merge_extra (extra : option (gmap string string))
    (kwargs : gmap string string) : gmap string string :=
  match extra with
  | Some e => if bool_decide (e ≠ ∅) then e ∪ kwargs else kwargs
  | None => kwargs
  end.

(** A [for] loop whose body may raise. *)
Fixpoint for_each {A} (body : A → World → Result) (l : list A) (w : World) : Result :=
  match l with
  | [] => Ok w
  | x :: l' => bind (body x w) (for_each body l')
  end.

Section Engine.
(** The callee of each nested call. *)
Variable call : Call → World → Result.

(** [wrapper] of [@action]. *)
Definition action (i : nat) (f : string) (kwargs : gmap string string)
    (w : World) : Result :=
  match heap w !! i with
  | None => Raised NoInstance w
  | Some m =>
      match get_action f (c_namespace (m_class m)) with
      | None => Raised AttributeError w
      | Some a =>
          let kwargs := merge_extra (m_extra_meta m) kwargs in
          match check_guard (a_when a) (a_unless a) (states_of m) with
          | RejectWhen => Ok (print (OCannotUnless i f (default ∅ (a_when a))) w)
          | RejectUnless => Ok (print (OCannotWhen i f (default ∅ (a_unless a))) w)
          | Allow =>
              bind (call (CBody i f (a_body a)) w)
                   (call (CProcess i (mkEvent f i (a_state a) (Some kwargs))))
          end
      end
  end.

(** [wrapper] of [@reaction]. *)
Definition reaction (i : nat) (r : ReactionFn) (ev : Event) (w : World) : Result :=
  match heap w !! i with
  | None => Raised NoInstance w
  | Some m =>
      match check_guard (r_when r) (r_unless r) (states_of m) with
      | RejectWhen =>
          Ok (print (OCannotReactUnless i (r_name r) (default ∅ (r_when r))) w)
      | RejectUnless =>
          Ok (print (OCannotReactWhen i (r_name r) (default ∅ (r_unless r))) w)
      | Allow => call (CBody i (r_name r) (r_body r)) w
      end
  end.

(** [function(self, ...)]: the decorated body. *)
Definition body (i : nat) (f : string) (b : Body) (w : World) : Result :=
  for_each (λ s, match s with SCall g => call (CAction i g ∅) end) b
           (print (OBody i f) w).

(** [StateMachine.publish_event] *)
Definition publish_event (i : nat) (ev : Event) (w : World) : Result :=
  match heap w !! i with
  | None => Raised NoInstance w
  | Some m =>
      for_each (λ j w', call (CProcess j ev) (print (OPublishing i (ev_name ev) j) w'))
               (elements (consumers m)) w
  end.

(** [StateMachine.process_event] *)
Definition process_event (i : nat) (ev : Event) (w : World) : Result :=
  match heap w !! i with
  | None => Raised NoInstance w
  | Some m =>
      let w1 := set_machine i (append_event ev m) w in
      if decide (ev_source ev = i)
      then call (CInternal i ev) (print (OProcessing i (ev_name ev)) w1)
      else call (CExternal i ev)
                (print (OProcessingFrom i (ev_name ev) (ev_source ev)) w1)
  end.

(** [StateMachine._process_internal_event] *)
Definition process_internal_event (i : nat) (ev : Event) (w : World) : Result :=
  match heap w !! i with
  | None => Raised NoInstance w
  | Some m =>
      let target_state := ev_state ev in
      if decide (m_state m = target_state) then Ok w
      else if bool_decide (target_state ∈ default [] (transitions_map m !! m_state m))
      then
        let w1 := print (OTransitioning i (m_state m) target_state) w in
        let w2 := set_machine i (set_state target_state m) w1 in
        if bool_decide (ev_name ev ∈ broadcast_events (m_class m))
        then call (CPublish i (mkEvent (ev_name ev) i target_state (ev_meta ev))) w2
        else Ok w2
      else Raised TransitionError w
  end.

(** [StateMachine._process_external_event] *)
Definition process_external_event (i : nat) (ev : Event) (w : World) : Result :=
  match heap w !! i with
  | None => Raised NoInstance w
  | Some m =>
      let w1 := set_machine i (set_publisher (ev_source ev) (ev_state ev) m) w in
      match reactions_to_state (m_class m) !! ev_state ev with
      | Some reaction_fn => call (CReaction i reaction_fn ev) w1
      | None => Ok w1
      end
  end.

Definition step (c : Call) : World → Result :=
  match c with
  | CAction i f kwargs => action i f kwargs
  | CReaction i r ev => reaction i r ev
  | CBody i f b => body i f b
  | CPublish i ev => publish_event i ev
  | CProcess i ev => process_event i ev
  | CInternal i ev => process_internal_event i ev
  | CExternal i ev => process_external_event i ev
  end.
End Engine.

(** The fuel bounds the depth of the call stack; the engine itself has no
    recursion guard, so a cyclic subscription graph can exhaust any bound. *)
Fixpoint run (fuel : nat) (c : Call) (w : World) : Result :=
  match fuel with
  | 0 => OutOfFuel
  | S n => step (run n) c w
  end.

(* ===================================================================== *)
(** ** Construction and wiring *)
(* ===================================================================== *)

(** An ASCII capital letter to its small letter. *)
Definition lower_ascii (c : Ascii.ascii) : Ascii.ascii :=
  let n := Ascii.nat_of_ascii c in
  if (65 <=? n)%nat && (n <=? 90)%nat then Ascii.ascii_of_nat (n + 32) else c.

(** [str.lower] on a name made of ASCII characters, as the class names of
    the post are; on other names it is not [str.lower]. *)
Fixpoint ascii_lower (s : string) : string :=
  match s with
  | EmptyString => EmptyString
  | String c s' => String (lower_ascii c) (ascii_lower s')
  end.

(** [d.setdefault(k, []); d[k].append(v)] *)
Definition append_destination (k v : State) (tm : gmap State (list State))
    : gmap State (list State) :=
  <[k := default [] (tm !! k) ++ [v]]> tm.

(** The loop of [__init__] over [self.transitions]. *)
Definition build_transitions_map (ts : list Transition) : gmap State (list State) :=
  foldl (λ tm t,
           let tm1 := append_destination (t_source t) (t_destination t) tm in
           if t_bidirectional t
           then append_destination (t_destination t) (t_source t) tm1
           else tm1)
        ∅ ts.

(** A fresh address. *)
Definition fresh_id (w : World) : nat :=
  map_fold (λ k _ acc, max (S k) acc) 0 (heap w).

(** [StateMachine.__init__]: returns the new instance and the new world.
    [str_lower] is Python's [str.lower], a builtin the constructor applies to
    the class name; it is taken as an argument, and the scenarios below, whose
    class names are ASCII, pass [ascii_lower].  The class attribute
    [transitions] is read here: a type that does not define it cannot be
    instantiated, and [Class] has no such types. *)
Definition init (str_lower : string → string) (cls : Class) (initial_state : State)
    (w : World) : nat * World :=
  let i := fresh_id w in
  let name := str_lower (c_name cls) in
  let m := mkMachine cls name initial_state [] (build_transitions_map (transitions cls))
                     ∅ ∅ None in
  (i, print (OStarting name initial_state) (set_machine i m w)).

(** [StateMachine.register] *)
Definition register (i : nat) (cs : list nat) (w : World) : Result :=
  for_each (λ consumer w',
              match heap w' !! i with
              | None => Raised NoInstance w'
              | Some m =>
                  Ok (set_machine i (add_consumer consumer m)
                                  (print (ORegistering i consumer) w'))
              end) cs w.

(** [StateMachine.subscribe] *)
Definition subscribe (i : nat) (ps : list nat) (w : World) : Result :=
  for_each (λ publisher w',
              match heap w' !! i, heap w' !! publisher with
              | Some m, Some p =>
                  register publisher [i]
                           (set_machine i (set_publisher publisher (m_state p) m) w')
              | _, _ => Raised NoInstance w'
              end) ps w.

(* ===================================================================== *)
(** ** The machine types of the post *)
(* ===================================================================== *)

Definition GREEN := mkState "TrafficLightState" "GREEN".
Definition YELLOW := mkState "TrafficLightState" "YELLOW".
Definition RED := mkState "TrafficLightState" "RED".

Definition CYCLING := mkState "CyclistState" "CYCLING".
Definition STOPPED := mkState "CyclistState" "STOPPED".

Definition PC_ROLLING := mkState "PoliceCarState" "ROLLING".
Definition PC_STOPPED := mkState "PoliceCarState" "STOPPED".
Definition PC_CHASING := mkState "PoliceCarState" "CHASING".

Definition TrafficLight : option Class :=
  StateMachineMeta_new "TrafficLight"
    [ mkTransition GREEN YELLOW false;
      mkTransition YELLOW RED false;
      mkTransition RED GREEN false ]
    [ MOther "transitions";
      MAction (mkAction "green" GREEN true None None []);
      MAction (mkAction "yellow" YELLOW true None None []);
      MAction (mkAction "red" RED true None None []) ].

Definition Cyclist : option Class :=
  StateMachineMeta_new "Cyclist"
    [ mkTransition STOPPED CYCLING false;
      mkTransition CYCLING STOPPED false ]
    [ MOther "transitions";
      MAction (mkAction "cycle_fast" CYCLING false
                 (Some {[GREEN; YELLOW]}) (Some {[PC_CHASING]}) []);
      MAction (mkAction "cycle_slow" CYCLING false
                 (Some {[GREEN]}) (Some {[PC_CHASING]}) []);
      MAction (mkAction "stop" STOPPED false None None []);
      MReaction (mkReaction "on_green_light" GREEN None None [SCall "cycle_slow"]);
      MReaction (mkReaction "on_red_light" RED None None [SCall "stop"]);
      MReaction (mkReaction "on_being_chased" PC_CHASING None None [SCall "stop"]) ].

Definition PoliceCar : option Class :=
  StateMachineMeta_new "PoliceCar"
    [ mkTransition PC_ROLLING PC_STOPPED true;
      mkTransition PC_ROLLING PC_CHASING true;
      mkTransition PC_STOPPED PC_CHASING true ]
    [ MOther "transitions";
      MAction (mkAction "chase" PC_CHASING true None None []);
      MAction (mkAction "roll" PC_ROLLING true None None []);
      MAction (mkAction "stop" PC_STOPPED false None None []);
      MReaction (mkReaction "on_green_light" GREEN None (Some {[PC_CHASING]})
                   [SCall "roll"]);
      MReaction (mkReaction "on_red_light" RED None (Some {[PC_CHASING]})
                   [SCall "stop"]) ].

Definition empty_world : World := mkWorld ∅ [].

(** The state of an instance, when it exists. *)
Definition state_of (i : nat) (w : World) : option State :=
  m_state <$> heap w !! i.

(** A driving scenario: each action of [calls] is invoked on [driver] in turn
    and the state of [observed] is recorded after each call that returns.  The
    first exception ends the scenario, as nothing catches it. *)
Fixpoint drive (fuel : nat) (driver observed : nat) (calls : list string)
    (w : World) : list (option State) * Result :=
  match calls with
  | [] => ([], Ok w)
  | f :: calls' =>
      match run fuel (CAction driver f ∅) w with
      | Ok w' =>
          let '(seen, r) := drive fuel driver observed calls' w' in
          (state_of observed w' :: seen, r)
      | r => ([], r)
      end
  end.

(** [Light] and [Rider] constructed and [Rider] subscribed to [Light]. *)
Definition setup (light_state rider_state : State) : option (nat * nat * World) :=
  L ← TrafficLight;
  R ← Cyclist;
  let '(light, w1) := init ascii_lower L light_state empty_world in
  let '(rider, w2) := init ascii_lower R rider_state w1 in
  match subscribe rider [light] w2 with
  | Ok w3 => Some (light, rider, w3)
  | _ => None
  end.

(** ... then the light driven through [calls]. *)
Definition light_and_rider (fuel : nat) (light_state rider_state : State)
    (calls : list string) : option (list (option State) * Result) :=
  '(light, rider, w) ← setup light_state rider_state;
  Some (drive fuel light rider calls w).

(** Scenario A of the post: a police car subscribed to a yellow light starts
    chasing, then the light turns red. *)
Definition scenario_A : option (list Output) :=
  L ← TrafficLight;
  P ← PoliceCar;
  let '(traffic_light, w1) := init ascii_lower L YELLOW empty_world in
  let '(police_car, w2) := init ascii_lower P PC_ROLLING w1 in
  match bind (bind (subscribe police_car [traffic_light] w2)
                   (run 16 (CAction police_car "chase" ∅)))
             (run 16 (CAction traffic_light "red" ∅)) with
  | Ok w => Some (out w)
  | _ => None
  end.

(** The guard rule in the words of the specification: [when] present and
    disjoint from the observed states rejects; otherwise [unless] present and
    meeting them rejects; otherwise the call is allowed. *)
Definition spec_guard_allows (when unless : option (gset State))
    (states : gset State) : bool :=
  match when with
  | Some W => if bool_decide (W ## states) then false
              else match unless with
                   | Some U => negb (bool_decide (U ∩ states ≠ ∅))
                   | None => true
                   end
  | None => match unless with
            | Some U => negb (bool_decide (U ∩ states ≠ ∅))
            | None => true
            end
  end.

(** The trigger states of the reactions of a namespace, in order. *)
Definition reaction_triggers (ns : list Member) : list State :=
  omap (λ x, match x with MReaction r => Some (r_state r) | _ => None end) ns.

(** A machine type that exercises the error path: a gate that may close but
    not reopen, and tries to open when a light turns green.

    class Gate(StateMachine):
        transitions = [Transition(GateState.OPEN, GateState.CLOSED)]
        @action(GateState.OPEN)
        def open(self, **kwargs): ...
        @reaction(TrafficLightState.GREEN)
        def on_green_light(self, event): self.open() *)
Definition OPEN := mkState "GateState" "OPEN".
Definition CLOSED := mkState "GateState" "CLOSED".

Definition Gate : option Class :=
  StateMachineMeta_new "Gate"
    [ mkTransition OPEN CLOSED false ]
    [ MOther "transitions";
      MAction (mkAction "open" OPEN false None None []);
      MReaction (mkReaction "on_green_light" GREEN None None [SCall "open"]) ].

(** A red light with two closed gates subscribed to it. *)
Definition light_and_two_gates : option (nat * nat * nat * World) :=
  L ← TrafficLight;
  G ← Gate;
  let '(light, w1) := init ascii_lower L RED empty_world in
  let '(g1, w2) := init ascii_lower G CLOSED w1 in
  let '(g2, w3) := init ascii_lower G CLOSED w2 in
  match bind (subscribe g1 [light] w3) (subscribe g2 [light]) with
  | Ok w4 => Some (light, g1, g2, w4)
  | _ => None
  end.

(** Two machine types that observe each other: a door that locks when the
    alarm rings, and an alarm that rings when the door opens.

    class Door(StateMachine):
        transitions = [Transition(DoorState.CLOSED, DoorState.OPEN),
                       Transition(DoorState.OPEN, DoorState.LOCKED)]
        @action(DoorState.OPEN, broadcast=True)
        def open(self, **kwargs): ...
        @action(DoorState.LOCKED)
        def lock(self, **kwargs): ...
        @reaction(AlarmState.RINGING)
        def on_alarm(self, event): self.lock()

    class Alarm(StateMachine):
        transitions = [Transition(AlarmState.SILENT, AlarmState.RINGING)]
        @action(AlarmState.RINGING, broadcast=True)
        def ring(self, **kwargs): ...
        @reaction(DoorState.OPEN)
        def on_door_open(self, event): self.ring() *)
Definition DOOR_CLOSED := mkState "DoorState" "CLOSED".
Definition DOOR_OPEN := mkState "DoorState" "OPEN".
Definition DOOR_LOCKED := mkState "DoorState" "LOCKED".
Definition SILENT := mkState "AlarmState" "SILENT".
Definition RINGING := mkState "AlarmState" "RINGING".

Definition Door : option Class :=
  StateMachineMeta_new "Door"
    [ mkTransition DOOR_CLOSED DOOR_OPEN false;
      mkTransition DOOR_OPEN DOOR_LOCKED false ]
    [ MOther "transitions";
      MAction (mkAction "open" DOOR_OPEN true None None []);
      MAction (mkAction "lock" DOOR_LOCKED false None None []);
      MReaction (mkReaction "on_alarm" RINGING None None [SCall "lock"]) ].

Definition Alarm : option Class :=
  StateMachineMeta_new "Alarm"
    [ mkTransition SILENT RINGING false ]
    [ MOther "transitions";
      MAction (mkAction "ring" RINGING true None None []);
      MReaction (mkReaction "on_door_open" DOOR_OPEN None None [SCall "ring"]) ].

(** A closed door and a silent alarm, each subscribed to the other. *)
Definition door_and_alarm : option (nat * nat * World) :=
  D ← Door;
  A ← Alarm;
  let '(door, w1) := init ascii_lower D DOOR_CLOSED empty_world in
  let '(alarm, w2) := init ascii_lower A SILENT w1 in
  match bind (subscribe door [alarm] w2) (subscribe alarm [door]) with
  | Ok w3 => Some (door, alarm, w3)
  | _ => None
  end.

(** A machine type whose action towards the state it is in has a body that
    moves the instance away first.

    class Flip(StateMachine):
        transitions = [Transition(FlipState.A, FlipState.B, bidirectional=True)]
        @action(FlipState.B, broadcast=True)
        def go_b(self, **kwargs): ...
        @action(FlipState.A)
        def stay_a(self, **kwargs): self.go_b() *)
Definition FLIP_A := mkState "FlipState" "A".
Definition FLIP_B := mkState "FlipState" "B".

Definition Flip : option Class :=
  StateMachineMeta_new "Flip"
    [ mkTransition FLIP_A FLIP_B true ]
    [ MOther "transitions";
      MAction (mkAction "go_b" FLIP_B true None None []);
      MAction (mkAction "stay_a" FLIP_A false None None [SCall "go_b"]) ].

(** A flip at A, and a green light subscribed to it. *)
Definition flip_and_light : option (nat * nat * World) :=
  F ← Flip;
  L ← TrafficLight;
  let '(flip, w1) := init ascii_lower F FLIP_A empty_world in
  let '(light, w2) := init ascii_lower L GREEN w1 in
  match subscribe light [flip] w2 with
  | Ok w3 => Some (flip, light, w3)
  | _ => None
  end.

(** The class body is executed into a dict before the metaclass sees it:
    [namespace[key] = value] replaces the value of a key that is already
    there, at its place, and appends a new key. *)
Fixpoint dict_set (x : Member) (ns : list Member) : list Member :=
  match ns with
  | [] => [x]
  | y :: ns' =>
      if decide (member_name y = member_name x) then x :: ns'
      else y :: dict_set x ns'
  end.

(** The namespace of a class body, whose definitions are given in order. *)
Definition namespace_of (class_body : list Member) : list Member :=
  foldl (λ ns x, dict_set x ns) [] class_body.

(** The [class] statement: the body is executed, then the metaclass runs. *)
Definition declare (name : string) (ts : list Transition)
    (class_body : list Member) : option Class :=
  StateMachineMeta_new name ts (namespace_of class_body).

(** The event log of an instance. *)
Definition events_of (i : nat) (w : World) : option (list Event) :=
  m_events <$> heap w !! i.

(** What the scenario shows of a run: the states seen, the last line of the
    output and the final state of the light. *)
Definition scenario_report (run : option (list (option State) * Result))
    : option (list (option State) * option Output * option State) :=
  match run with
  | Some (seen, Ok w) => Some (seen, last (out w), state_of 0 w)
  | _ => None
  end.

(** The class object the metaclass builds for [TrafficLight], and a world
    holding one light. *)
Definition TrafficLight_class : Class :=
  mkClass "TrafficLight"
    [ mkTransition GREEN YELLOW false;
      mkTransition YELLOW RED false;
      mkTransition RED GREEN false ]
    [ MOther "transitions";
      MAction (mkAction "green" GREEN true None None []);
      MAction (mkAction "yellow" YELLOW true None None []);
      MAction (mkAction "red" RED true None None []) ]
    ["green"; "yellow"; "red"] ∅.

Definition light_machine (s : State) : Machine :=
  mkMachine TrafficLight_class "trafficlight" s []
            (build_transitions_map (transitions TrafficLight_class)) ∅ ∅ None.

Definition lone_light (s : State) : World :=
  (init ascii_lower TrafficLight_class s empty_world).2.

(** A light registered as its own consumer. *)
Definition watched_light (s : State) : World :=
  set_machine 0 (add_consumer 0 (light_machine s)) (lone_light s).

(** Two lights: instance 0 at RED, instance 1 at YELLOW. *)
Definition two_lights : World :=
  (init ascii_lower TrafficLight_class YELLOW (lone_light RED)).2.

(* ===================================================================== *)
(** ** What a call may change *)
(* ===================================================================== *)

(** Dispatch never touches the type, the adjacency, the consumers or the extra
    metadata of an instance, and only appends to its event log. *)
Record machine_extends (m m' : Machine) : Prop := mkExtends {
  ext_class : m_class m' = m_class m;
  ext_name : m_name m' = m_name m;
  ext_transitions_map : transitions_map m' = transitions_map m;
  ext_consumers : consumers m' = consumers m;
  ext_extra_meta : m_extra_meta m' = m_extra_meta m;
  ext_events : m_events m `prefix_of` m_events m'
}.

Definition extends (w w' : World) : Prop :=
  out w `prefix_of` out w' ∧
  ∀ j, option_Forall2 machine_extends (heap w !! j) (heap w' !! j).

(** A property of the world in which a call ends, by return or by raise. *)
Definition result_sat (R : World → Prop) (r : Result) : Prop :=
  match r with
  | Ok w => R w
  | Raised _ w => R w
  | OutOfFuel => True
  end.

(** The instance a call runs on. *)
Definition call_target (c : Call) : nat :=
  match c with
  | CAction i _ _ | CReaction i _ _ | CBody i _ _
  | CPublish i _ | CProcess i _ | CInternal i _ | CExternal i _ => i
  end.

(** No other instance delivers events to [i]. *)
Definition unsubscribed (i : nat) (w : World) : Prop :=
  ∀ j m, heap w !! j = Some m → j ≠ i → i ∉ consumers m.

(** A call that leaves instance [i] untouched. *)
Definition frame (i : nat) (w w' : World) : Prop :=
  extends w w' ∧ heap w' !! i = heap w !! i.

(** How often the body of [f] was entered on instance [i]. *)
Definition body_runs (i : nat) (f : string) (w : World) : nat :=
  length (filter (λ o, o = OBody i f) (out w)).

(** The event an action hands to [process_event]. *)
Definition action_event (i : nat) (f : string) (a : ActionFn) (m : Machine)
    (kwargs : gmap string string) : Event :=
  mkEvent f i (a_state a) (Some (merge_extra (m_extra_meta m) kwargs)).

(** The world after [process_event] has logged an internal event. *)
Definition logged (i : nat) (ev : Event) (m : Machine) (w : World) : World :=
  print (OProcessing i (ev_name ev)) (set_machine i (append_event ev m) w).

(** ... and after the transition has been applied. *)
Definition moved (i : nat) (ev : Event) (m : Machine) (w : World) : World :=
  set_machine i (set_state (ev_state ev) (append_event ev m))
    (print (OTransitioning i (m_state m) (ev_state ev))
       (print (OProcessing i (ev_name ev)) w)).

(** The relay built by [_process_internal_event]. *)
Definition relay_of (i : nat) (ev : Event) : Event :=
  mkEvent (ev_name ev) i (ev_state ev) (ev_meta ev).

(** The world after [process_event] has logged an external event and
    [_process_external_event] has recorded the publisher's state. *)
Definition observed (i : nat) (ev : Event) (m : Machine) (w : World) : World :=
  set_machine i (set_publisher (ev_source ev) (ev_state ev) (append_event ev m))
    (print (OProcessingFrom i (ev_name ev) (ev_source ev)) w).

(** The class object the metaclass builds for [Gate]. *)
Definition Gate_class : Class :=
  mkClass "Gate"
    [ mkTransition OPEN CLOSED false ]
    [ MOther "transitions";
      MAction (mkAction "open" OPEN false None None []);
      MReaction (mkReaction "on_green_light" GREEN None None [SCall "open"]) ]
    []
    {[ GREEN := mkReaction "on_green_light" GREEN None None [SCall "open"] ]}.

Definition gate_machine (s : State) : Machine :=
  mkMachine Gate_class "gate" s []
            (build_transitions_map (transitions Gate_class)) ∅ ∅ None.

(** A red light (instance 0) and a closed gate (instance 1), not wired. *)
Definition light_and_gate : World :=
  (init ascii_lower Gate_class CLOSED (lone_light RED)).2.

(** Two lights, the second a consumer of the first. *)
Definition chained_lights : World :=
  set_machine 0 (add_consumer 1 (light_machine RED)) two_lights.

(** Two lights, the first holding a snapshot of the second. *)
Definition observing_lights : World :=
  set_machine 0 (set_publisher 1 YELLOW (light_machine RED)) two_lights.

(* ===================================================================== *)
(** ** Notions used to state what the engine keeps *)
(* ===================================================================== *)

(** A transition of [ts] provides the edge from [A] to [B], directly or as
    the reverse of a bidirectional one. *)
Definition declares (ts : list Transition) (A B : State) : Prop :=
  ∃ t, t ∈ ts ∧ ((t_source t = A ∧ t_destination t = B)
               ∨ (t_bidirectional t = true ∧ t_source t = B ∧ t_destination t = A)).

(** [B in self.transitions_map.get(A, [])] *)
Definition edge (tm : gmap State (list State)) (A B : State) : Prop :=
  B ∈ default [] (tm !! A).

(** The action functions of a namespace, in order. *)
Definition actions_of (ns : list Member) : list ActionFn :=
  omap (λ x, match x with MAction a => Some a | _ => None end) ns.

(** Every instance of [w] is still there in [w'], with the adjacency it had
    and a state reached from its old one along edges of that adjacency. *)
Definition evolves (w w' : World) : Prop :=
  ∀ j m, heap w !! j = Some m →
    ∃ m', heap w' !! j = Some m'
          ∧ transitions_map m' = transitions_map m
          ∧ rtc (edge (transitions_map m)) (m_state m) (m_state m').

(** The call ended in [w'], by return or by an exception. *)
Definition ends_in (r : Result) (w' : World) : Prop :=
  r = Ok w' ∨ ∃ e, r = Raised e w'.

(** Every call of a body names an action of the namespace. *)
Definition valid_body (ns : list Member) (b : Body) : Prop :=
  ∀ g, SCall g ∈ b → is_Some (get_action g ns).

(** The bodies of a machine type call only actions the type declares. *)
Definition closed_class (c : Class) : Prop :=
  (∀ a, MAction a ∈ c_namespace c → valid_body (c_namespace c) (a_body a))
  ∧ (∀ s r, reactions_to_state c !! s = Some r →
            valid_body (c_namespace c) (r_body r)).

(** Every instance has such a type, and every consumer is an instance. *)
Definition closed_world (w : World) : Prop :=
  ∀ j m, heap w !! j = Some m →
    closed_class (m_class m) ∧ ∀ k, k ∈ consumers m → is_Some (heap w !! k).

(** A call the engine or a driver can make in [w]: on an existing instance,
    naming a declared action, with a body that calls declared actions. *)
Definition valid_call (w : World) (c : Call) : Prop :=
  ∃ m, heap w !! call_target c = Some m
       ∧ match c with
         | CAction _ f _ => is_Some (get_action f (c_namespace (m_class m)))
         | CReaction _ r _ => valid_body (c_namespace (m_class m)) (r_body r)
         | CBody _ _ b => valid_body (c_namespace (m_class m)) b
         | _ => True
         end.

(** The only exception a call ends with is a [TransitionError]. *)
Definition raises_only_TransitionError (r : Result) : Prop :=
  match r with
  | Raised e _ => e = TransitionError
  | _ => True
  end.

(** [publish_event] is the one call that works on other instances. *)
Definition is_publish (c : Call) : bool :=
  match c with
  | CPublish _ _ => true
  | _ => false
  end.

(** Instance [i] exists and its type declares no broadcast action. *)
Definition silent (i : nat) (w : World) : Prop :=
  ∃ m, heap w !! i = Some m ∧ broadcast_events (m_class m) = [].

(** A call that changed nothing outside instance [i]. *)
Definition only_touches (i : nat) (w w' : World) : Prop :=
  extends w w' ∧ ∀ j, j ≠ i → heap w' !! j = heap w !! j.

(** Every instance of [w] is still there in [w'] and still has an entry for
    every publisher it had one for. *)
Definition remembers (w w' : World) : Prop :=
  ∀ j m, heap w !! j = Some m →
    ∃ m', heap w' !! j = Some m' ∧ dom (publishers m) ⊆ dom (publishers m').

(* ===================================================================== *)
(** ** The example worlds *)
(* ===================================================================== *)

Lemma TrafficLight_declared : TrafficLight = Some TrafficLight_class.
Proof. by vm_compute. Qed.

Lemma lone_light_lookup s : heap (lone_light s) !! 0 = Some (light_machine s).
Proof. by vm_compute. Qed.

(** The model prints what the post shows for scenario A: the police car
    ignores the red light while it is chasing. *)
Lemma scenario_A_log :
  scenario_A =
  Some [ OStarting "trafficlight" YELLOW;
         OStarting "policecar" PC_ROLLING;
         ORegistering 0 1;
         OBody 1 "chase";
         OProcessing 1 "chase";
         OTransitioning 1 PC_ROLLING PC_CHASING;
         OBody 0 "red";
         OProcessing 0 "red";
         OTransitioning 0 YELLOW RED;
         OPublishing 0 "red" 1;
         OProcessingFrom 1 "red" 0;
         OCannotReactWhen 1 "on_red_light" {[PC_CHASING]} ].
Proof. by vm_compute. Qed.

(* ===================================================================== *)
(** ** Guards: properties *)
(* ===================================================================== *)

Lemma elem_of_states_of (m : Machine) (s : State) :
  s ∈ states_of m ↔ s = m_state m ∨ ∃ p, publishers m !! p = Some s.
Proof.
  unfold states_of. rewrite elem_of_list_to_set, elem_of_app, list_elem_of_singleton.
  split.
  - intros [H | H]; [right | by left].
    apply list_elem_of_fmap in H as [[p s'] [-> H]].
    exists p. by apply elem_of_map_to_list.
  - intros [H | [p H]]; [by right | left].
    apply list_elem_of_fmap. exists (p, s). split; [done |].
    by apply elem_of_map_to_list.
Qed.

Lemma set_truthy_true (X : gset State) : set_truthy X = true ↔ X ≠ ∅.
Proof. unfold set_truthy. apply bool_decide_eq_true. Qed.

Lemma set_truthy_false (X : gset State) : set_truthy X = false ↔ X = ∅.
Proof.
  unfold set_truthy. rewrite bool_decide_eq_false.
  split; [apply dec_stable | auto].
Qed.

Lemma set_truthy_empty : set_truthy ∅ = false.
Proof. by apply set_truthy_false. Qed.

Lemma when_rejects_true when states :
  when_rejects when states = true ↔ ∃ W, when = Some W ∧ W ≠ ∅ ∧ W ## states.
Proof.
  destruct when as [W|]; simpl.
  - rewrite andb_true_iff, negb_true_iff, set_truthy_true, set_truthy_false.
    split.
    + intros [H1 H2]. exists W. split_and!; [done | done | set_solver].
    + intros (W' & HW & H1 & H2). injection HW as <-. split; [done | set_solver].
  - split; [done | by intros (? & ? & _)].
Qed.

Lemma unless_rejects_true unless states :
  unless_rejects unless states = true ↔ ∃ U, unless = Some U ∧ U ∩ states ≠ ∅.
Proof.
  destruct unless as [U|]; simpl.
  - rewrite andb_true_iff, !set_truthy_true. split.
    + intros [_ H]. by exists U.
    + intros (U' & HU & H). injection HU as <-. split; [set_solver | done].
  - split; [done | by intros (? & ? & _)].
Qed.

Lemma check_guard_when when unless states :
  check_guard when unless states = RejectWhen ↔ when_rejects when states = true.
Proof.
  unfold check_guard.
  destruct (when_rejects when states); [done |].
  destruct (unless_rejects unless states); split; done.
Qed.

Lemma check_guard_unless when unless states :
  check_guard when unless states = RejectUnless ↔
  when_rejects when states = false ∧ unless_rejects unless states = true.
Proof.
  unfold check_guard.
  destruct (when_rejects when states); [split; [done | by intros [? _]] |].
  destruct (unless_rejects unless states); split; try done. by intros [_ ?].
Qed.

Lemma check_guard_allow when unless states :
  check_guard when unless states = Allow ↔
  when_rejects when states = false ∧ unless_rejects unless states = false.
Proof.
  unfold check_guard.
  destruct (when_rejects when states); [split; [done | by intros [? _]] |].
  destruct (unless_rejects unless states); split; try done. by intros [_ ?].
Qed.

(* ===================================================================== *)
(** ** More fuel changes nothing *)
(* ===================================================================== *)

Lemma bind_not_out_of_fuel r k :
  bind r k ≠ OutOfFuel →
  r ≠ OutOfFuel ∧ ∀ w, r = Ok w → k w ≠ OutOfFuel.
Proof. destruct r; simpl; intros H; split; try done; by intros ? [= <-]. Qed.

Lemma bind_mono r k k' :
  (∀ w, k w ≠ OutOfFuel → k' w = k w) →
  bind r k ≠ OutOfFuel → bind r k' = bind r k.
Proof. destruct r; simpl; auto. Qed.

Lemma for_each_mono {A} (f f' : A → World → Result) (l : list A) :
  (∀ x w, f x w ≠ OutOfFuel → f' x w = f x w) →
  ∀ w, for_each f l w ≠ OutOfFuel → for_each f' l w = for_each f l w.
Proof.
  intros Hf. induction l as [|x l IH]; intros w H; simpl in *; [done |].
  pose proof (bind_not_out_of_fuel _ _ H) as [Hx _].
  rewrite (Hf _ _ Hx). by apply bind_mono.
Qed.

Section StepMono.
Variables call call' : Call → World → Result.
Hypothesis call_mono : ∀ c w, call c w ≠ OutOfFuel → call' c w = call c w.

Lemma step_mono c w : step call c w ≠ OutOfFuel → step call' c w = step call c w.
Proof using call_mono.
  destruct c as [i f kw | i r ev | i f b | i ev | i ev | i ev | i ev]; simpl.
  - unfold action. destruct (heap w !! i) as [m|]; [ | done].
    destruct (get_action _ _) as [a|]; [ | done].
    destruct (check_guard _ _ _); [ | done | done ].
    intros H. pose proof (bind_not_out_of_fuel _ _ H) as [Hb _].
    rewrite (call_mono _ _ Hb).
    apply bind_mono; [intros; by apply call_mono | done].
  - unfold reaction. destruct (heap w !! i) as [m|]; [ | done].
    destruct (check_guard _ _ _); auto.
  - unfold body. apply for_each_mono. intros [g] w'. apply call_mono.
  - unfold publish_event. destruct (heap w !! i) as [m|]; [ | done].
    apply for_each_mono. intros j w'. apply call_mono.
  - unfold process_event. destruct (heap w !! i) as [m|]; [ | done].
    case_decide; apply call_mono.
  - unfold process_internal_event. destruct (heap w !! i) as [m|]; [ | done].
    repeat case_decide; try done. repeat case_bool_decide; try done. apply call_mono.
  - unfold process_external_event. destruct (heap w !! i) as [m|]; [ | done].
    destruct (_ !! ev_state ev); [apply call_mono | done].
Qed.
End StepMono.

Lemma run_S n : ∀ c w, run n c w ≠ OutOfFuel → run (S n) c w = run n c w.
Proof.
  induction n as [|n IH]; intros c w H; [done |].
  change (step (run (S n)) c w = step (run n) c w).
  by apply step_mono.
Qed.

Lemma run_mono n k c w : run n c w ≠ OutOfFuel → n ≤ k → run k c w = run n c w.
Proof.
  intros H Hle. induction Hle as [|k Hle IH]; [done |].
  rewrite <- IH. apply run_S. by rewrite IH.
Qed.

(* ===================================================================== *)
(** ** The frame of a call *)
(* ===================================================================== *)

Lemma machine_extends_refl m : machine_extends m m.
Proof. by constructor. Qed.

Lemma machine_extends_trans m1 m2 m3 :
  machine_extends m1 m2 → machine_extends m2 m3 → machine_extends m1 m3.
Proof.
  intros [] []. constructor; try congruence. by etrans.
Qed.

Lemma extends_refl w : extends w w.
Proof.
  split; [done |]. intros j. destruct (heap w !! j); constructor.
  apply machine_extends_refl.
Qed.

Lemma extends_trans w1 w2 w3 : extends w1 w2 → extends w2 w3 → extends w1 w3.
Proof.
  intros [Ho1 Hh1] [Ho2 Hh2]. split; [by etrans |].
  intros j. specialize (Hh1 j). specialize (Hh2 j).
  destruct Hh1 as [m1 m2 H12|]; inversion Hh2; subst; constructor.
  by eapply machine_extends_trans.
Qed.

Lemma extends_print o w : extends w (print o w).
Proof.
  split; [by apply prefix_app_r |]. intros j. simpl.
  destruct (heap w !! j); constructor. apply machine_extends_refl.
Qed.

Lemma extends_set_machine i m m' w :
  heap w !! i = Some m → machine_extends m m' → extends w (set_machine i m' w).
Proof.
  intros Hi Hm. split; [done |]. intros j. simpl.
  destruct (decide (i = j)) as [<- | Hne].
  - rewrite lookup_insert_eq, Hi. by constructor.
  - rewrite lookup_insert_ne by done.
    destruct (heap w !! j); constructor. apply machine_extends_refl.
Qed.

Lemma result_sat_impl (R R' : World → Prop) r :
  (∀ w, R w → R' w) → result_sat R r → result_sat R' r.
Proof. destruct r; simpl; auto. Qed.

Lemma result_sat_bind (R1 R : World → Prop) r k :
  result_sat R1 r →
  (∀ w, R1 w → R w) →
  (∀ w, R1 w → result_sat R (k w)) →
  result_sat R (bind r k).
Proof. destruct r; simpl; auto. Qed.

Lemma for_each_extends {A} (f : A → World → Result) (l : list A) :
  (∀ x w, result_sat (extends w) (f x w)) →
  ∀ w, result_sat (extends w) (for_each f l w).
Proof.
  intros Hf. induction l as [|x l IH]; intros w; simpl; [apply extends_refl |].
  eapply result_sat_bind; [apply Hf | done |].
  intros w1 H1. eapply result_sat_impl; [|apply IH].
  intros w2. by apply extends_trans.
Qed.

Lemma result_sat_extends_step w1 w r :
  extends w w1 → result_sat (extends w1) r → result_sat (extends w) r.
Proof.
  intros H. apply result_sat_impl. intros w2. by apply extends_trans.
Qed.

Section StepExtends.
Variable call : Call → World → Result.
Hypothesis call_extends : ∀ c w, result_sat (extends w) (call c w).

Lemma step_extends c w : result_sat (extends w) (step call c w).
Proof using call_extends.
  destruct c as [i f kw | i r ev | i f b | i ev | i ev | i ev | i ev]; simpl.
  - unfold action. destruct (heap w !! i) as [m|]; [ | apply extends_refl].
    destruct (get_action _ _) as [a|]; [ | apply extends_refl].
    destruct (check_guard _ _ _); simpl; try apply extends_print.
    eapply result_sat_bind; [apply call_extends | done |].
    intros w1 H1. eapply result_sat_extends_step; [done | apply call_extends].
  - unfold reaction. destruct (heap w !! i) as [m|]; [ | apply extends_refl].
    destruct (check_guard _ _ _); simpl; try apply extends_print.
    apply call_extends.
  - unfold body. eapply result_sat_extends_step; [apply extends_print |].
    apply for_each_extends. intros [g] w'. apply call_extends.
  - unfold publish_event. destruct (heap w !! i) as [m|]; [ | apply extends_refl].
    apply for_each_extends. intros j w'.
    eapply result_sat_extends_step; [apply extends_print | apply call_extends].
  - unfold process_event. destruct (heap w !! i) as [m|] eqn:Hi; [ | apply extends_refl].
    assert (extends w (set_machine i (append_event ev m) w)) as He.
    { apply extends_set_machine with m; [done |].
      constructor; try done. simpl. by apply prefix_app_r. }
    case_decide;
      (eapply result_sat_extends_step;
       [eapply extends_trans; [apply He | apply extends_print] | apply call_extends]).
  - unfold process_internal_event.
    destruct (heap w !! i) as [m|] eqn:Hi; [ | apply extends_refl].
    case_decide; [apply extends_refl |].
    case_bool_decide; [ | apply extends_refl].
    assert (extends w (set_machine i (set_state (ev_state ev) m)
                         (print (OTransitioning i (m_state m) (ev_state ev)) w))) as He.
    { eapply extends_trans; [apply extends_print |].
      apply extends_set_machine with m; [done | by constructor]. }
    case_bool_decide; [ | done].
    eapply result_sat_extends_step; [apply He | apply call_extends].
  - unfold process_external_event.
    destruct (heap w !! i) as [m|] eqn:Hi; [ | apply extends_refl].
    assert (extends w (set_machine i (set_publisher (ev_source ev) (ev_state ev) m) w))
      as He.
    { apply extends_set_machine with m; [done | by constructor]. }
    destruct (_ !! ev_state ev); [ | done].
    eapply result_sat_extends_step; [apply He | apply call_extends].
Qed.
End StepExtends.

Lemma run_extends n : ∀ c w, result_sat (extends w) (run n c w).
Proof.
  induction n as [|n IH]; intros c w; [done |].
  by apply step_extends.
Qed.

(* ===================================================================== *)
(** ** Equations of the engine *)
(* ===================================================================== *)

Lemma run_unfold n c w : run (S n) c w = step (run n) c w.
Proof. done. Qed.

Lemma run_action n i f kwargs w m a :
  heap w !! i = Some m →
  get_action f (c_namespace (m_class m)) = Some a →
  run (S n) (CAction i f kwargs) w =
  match check_guard (a_when a) (a_unless a) (states_of m) with
  | RejectWhen => Ok (print (OCannotUnless i f (default ∅ (a_when a))) w)
  | RejectUnless => Ok (print (OCannotWhen i f (default ∅ (a_unless a))) w)
  | Allow => bind (run n (CBody i f (a_body a)) w)
                  (run n (CProcess i (action_event i f a m kwargs)))
  end.
Proof. intros Hi Ha. simpl. unfold action. by rewrite Hi, Ha. Qed.

Lemma run_process_internal n i ev w m :
  heap w !! i = Some m →
  ev_source ev = i →
  run (S (S n)) (CProcess i ev) w =
  if decide (m_state m = ev_state ev) then Ok (logged i ev m w)
  else if bool_decide (ev_state ev ∈ default [] (transitions_map m !! m_state m))
  then if bool_decide (ev_name ev ∈ broadcast_events (m_class m))
       then run n (CPublish i (relay_of i ev)) (moved i ev m w)
       else Ok (moved i ev m w)
  else Raised TransitionError (logged i ev m w).
Proof.
  intros Hi Hs. rewrite run_unfold. cbn [step].
  unfold process_event. rewrite Hi. rewrite decide_True by done.
  rewrite run_unfold. cbn [step].
  unfold process_internal_event. cbn [heap print set_machine].
  rewrite lookup_insert_eq. cbn [m_state append_event transitions_map m_class].
  fold (logged i ev m w).
  destruct (decide (m_state m = ev_state ev)); [done |].
  case_bool_decide; [ | done].
  assert (set_machine i (set_state (ev_state ev) (append_event ev m))
            (print (OTransitioning i (m_state m) (ev_state ev)) (logged i ev m w))
          = moved i ev m w) as ->; [ | done].
  unfold moved, logged, set_machine, print. cbn [heap out].
  by rewrite insert_insert_eq.
Qed.

Lemma run_process_external n i ev w m :
  heap w !! i = Some m →
  ev_source ev ≠ i →
  run (S (S n)) (CProcess i ev) w =
  match reactions_to_state (m_class m) !! ev_state ev with
  | Some r => run n (CReaction i r ev) (observed i ev m w)
  | None => Ok (observed i ev m w)
  end.
Proof.
  intros Hi Hs. rewrite run_unfold. cbn [step].
  unfold process_event. rewrite Hi. rewrite decide_False by done.
  rewrite run_unfold. cbn [step].
  unfold process_external_event. cbn [heap print set_machine].
  rewrite lookup_insert_eq. cbn [m_class append_event].
  unfold observed, set_machine, print. cbn [heap out].
  by rewrite insert_insert_eq.
Qed.

Lemma observed_lookup i ev m w :
  heap (observed i ev m w) !! i =
  Some (set_publisher (ev_source ev) (ev_state ev) (append_event ev m)).
Proof. unfold observed. simpl. by rewrite lookup_insert_eq. Qed.

Lemma run_reaction n i r ev w m :
  heap w !! i = Some m →
  run (S n) (CReaction i r ev) w =
  match check_guard (r_when r) (r_unless r) (states_of m) with
  | RejectWhen => Ok (print (OCannotReactUnless i (r_name r) (default ∅ (r_when r))) w)
  | RejectUnless => Ok (print (OCannotReactWhen i (r_name r) (default ∅ (r_unless r))) w)
  | Allow => run n (CBody i (r_name r) (r_body r)) w
  end.
Proof. intros Hi. simpl. unfold reaction. by rewrite Hi. Qed.

Lemma run_publish n i ev w m :
  heap w !! i = Some m →
  run (S n) (CPublish i ev) w =
  for_each (λ j w', run n (CProcess j ev) (print (OPublishing i (ev_name ev) j) w'))
           (elements (consumers m)) w.
Proof. intros Hi. simpl. unfold publish_event. by rewrite Hi. Qed.

(* ===================================================================== *)
(** ** Calls on other instances *)
(* ===================================================================== *)

Lemma frame_refl i w : frame i w w.
Proof. split; [apply extends_refl | done]. Qed.

Lemma frame_trans i w1 w2 w3 : frame i w1 w2 → frame i w2 w3 → frame i w1 w3.
Proof.
  intros [He1 Hi1] [He2 Hi2]. split; [by eapply extends_trans | congruence].
Qed.

Lemma frame_print i o w : frame i w (print o w).
Proof. split; [apply extends_print | done]. Qed.

Lemma frame_set_machine i j m m' w :
  j ≠ i → heap w !! j = Some m → machine_extends m m' →
  frame i w (set_machine j m' w).
Proof.
  intros Hne Hj Hm. split; [by eapply extends_set_machine |].
  simpl. by rewrite lookup_insert_ne.
Qed.

Lemma unsubscribed_extends i w w' : extends w w' → unsubscribed i w → unsubscribed i w'.
Proof.
  intros [_ Hh] Hu j m' Hj Hne. specialize (Hh j). rewrite Hj in Hh.
  inversion Hh as [m ? Hm Hw |]; subst.
  rewrite (ext_consumers _ _ Hm). by eapply Hu.
Qed.

Lemma result_sat_frame_step i w w1 r :
  frame i w w1 → result_sat (frame i w1) r → result_sat (frame i w) r.
Proof.
  intros H. apply result_sat_impl. intros w2. by apply frame_trans.
Qed.

Lemma for_each_frame {A} i (f : A → World → Result) (l : list A) :
  (∀ x w, x ∈ l → unsubscribed i w → result_sat (frame i w) (f x w)) →
  ∀ w, unsubscribed i w → result_sat (frame i w) (for_each f l w).
Proof.
  induction l as [|x l IH]; intros Hf w Hu; simpl; [apply frame_refl |].
  eapply result_sat_bind; [apply Hf; [left | done] | done |].
  intros w1 H1. eapply result_sat_frame_step; [done |].
  apply IH.
  - intros y w' Hy. apply Hf. by right.
  - eapply unsubscribed_extends; [apply H1 | done].
Qed.

Section StepFrame.
Variable call : Call → World → Result.
Variable i : nat.
Hypothesis call_frame :
  ∀ c w, unsubscribed i w → call_target c ≠ i → result_sat (frame i w) (call c w).

Lemma step_frame c w :
  unsubscribed i w → call_target c ≠ i → result_sat (frame i w) (step call c w).
Proof using call_frame.
  intros Hu Hc.
  destruct c as [j f kw | j r ev | j f b | j ev | j ev | j ev | j ev];
    simpl in Hc; cbn [step].
  - unfold action. destruct (heap w !! j) as [m|]; [ | apply frame_refl].
    destruct (get_action _ _) as [a|]; [ | apply frame_refl].
    destruct (check_guard _ _ _); simpl; try apply frame_print.
    eapply result_sat_bind; [by apply call_frame | done |].
    intros w1 H1. eapply result_sat_frame_step; [done |].
    apply call_frame; [ | done]. eapply unsubscribed_extends; [apply H1 | done].
  - unfold reaction. destruct (heap w !! j) as [m|]; [ | apply frame_refl].
    destruct (check_guard _ _ _); simpl; try apply frame_print.
    by apply call_frame.
  - unfold body. eapply result_sat_frame_step; [apply frame_print |].
    apply for_each_frame.
    + intros [g] w' _ Hu'. by apply call_frame.
    + eapply unsubscribed_extends; [apply extends_print | done].
  - unfold publish_event. destruct (heap w !! j) as [m|] eqn:Hj; [ | apply frame_refl].
    apply for_each_frame; [ | done]. intros k w' Hk Hu'.
    eapply result_sat_frame_step; [apply frame_print |].
    apply call_frame.
    + eapply unsubscribed_extends; [apply extends_print | done].
    + simpl. intros ->. apply elem_of_elements in Hk. by eapply Hu.
  - unfold process_event. destruct (heap w !! j) as [m|] eqn:Hj; [ | apply frame_refl].
    assert (frame i w (set_machine j (append_event ev m) w)) as He.
    { apply frame_set_machine with m; [done | done |].
      constructor; try done. simpl. by apply prefix_app_r. }
    case_decide;
      (eapply result_sat_frame_step;
       [eapply frame_trans; [apply He | apply frame_print] |
        apply call_frame; [ | done];
        eapply unsubscribed_extends; [ | apply Hu];
        eapply extends_trans; [apply He | apply extends_print]]).
  - unfold process_internal_event.
    destruct (heap w !! j) as [m|] eqn:Hj; [ | apply frame_refl].
    case_decide; [apply frame_refl |].
    case_bool_decide; [ | apply frame_refl].
    assert (frame i w (set_machine j (set_state (ev_state ev) m)
                         (print (OTransitioning j (m_state m) (ev_state ev)) w))) as He.
    { eapply frame_trans; [apply frame_print |].
      apply frame_set_machine with m; [done | done | by constructor]. }
    case_bool_decide; [ | done].
    eapply result_sat_frame_step; [apply He |].
    apply call_frame; [ | done]. eapply unsubscribed_extends; [apply He | done].
  - unfold process_external_event.
    destruct (heap w !! j) as [m|] eqn:Hj; [ | apply frame_refl].
    assert (frame i w (set_machine j (set_publisher (ev_source ev) (ev_state ev) m) w))
      as He.
    { apply frame_set_machine with m; [done | done | by constructor]. }
    destruct (_ !! ev_state ev); [ | done].
    eapply result_sat_frame_step; [apply He |].
    apply call_frame; [ | done]. eapply unsubscribed_extends; [apply He | done].
Qed.
End StepFrame.

(** A call on another instance leaves [i] as it was, when nothing delivers
    to [i]. *)
Lemma run_frame i n : ∀ c w,
  unsubscribed i w → call_target c ≠ i → result_sat (frame i w) (run n c w).
Proof.
  induction n as [|n IH]; intros c w Hu Hc; [done |].
  by apply step_frame.
Qed.

(* ===================================================================== *)
(** ** Fan-out *)
(* ===================================================================== *)

Lemma for_each_inv {A} (I : World → Prop) (f : A → World → Result) (l : list A) :
  (∀ x w, x ∈ l → I w → result_sat I (f x w)) →
  ∀ w, I w → result_sat I (for_each f l w).
Proof.
  induction l as [|x l IH]; intros Hf w Hw; simpl; [done |].
  eapply result_sat_bind with (R1 := I); [apply Hf; [left | done] | done |].
  intros w1 H1. apply IH; [ | done]. intros y w' Hy. apply Hf. by right.
Qed.

Lemma state_of_Some i w s :
  state_of i w = Some s ↔ ∃ m, heap w !! i = Some m ∧ m_state m = s.
Proof.
  unfold state_of. destruct (heap w !! i) as [m|]; simpl.
  - split; [intros [= <-]; eauto | by intros (? & [= <-] & <-)].
  - split; [done | by intros (? & ? & _)].
Qed.

Lemma state_of_frame i w w' s :
  frame i w w' → state_of i w = Some s → state_of i w' = Some s.
Proof. intros [_ H]. unfold state_of. by rewrite H. Qed.

(** An event the instance sent to itself and that asks for the state it is in
    changes nothing but the log. *)
Lemma process_own_state i n ev w :
  ev_source ev = i →
  state_of i w = Some (ev_state ev) →
  result_sat (λ w', state_of i w' = Some (ev_state ev)) (run n (CProcess i ev) w).
Proof.
  intros Hs Hst. apply state_of_Some in Hst as (m & Hi & Hm).
  destruct n as [|[|n]]; [done | |].
  - rewrite run_unfold. cbn [step]. unfold process_event.
    rewrite Hi. by rewrite decide_True.
  - rewrite (run_process_internal _ _ _ _ m) by done.
    rewrite decide_True by done. simpl.
    unfold state_of. simpl. rewrite lookup_insert_eq. simpl. by rewrite Hm.
Qed.

(** While a relay of its own transition is fanned out, an instance to which
    nothing else delivers stays in the state it moved to. *)
Lemma publish_keeps_state i n ev w :
  unsubscribed i w →
  ev_source ev = i →
  state_of i w = Some (ev_state ev) →
  result_sat (λ w', state_of i w' = Some (ev_state ev)) (run n (CPublish i ev) w).
Proof.
  intros Hu Hs Hst. destruct n as [|n]; [done |].
  pose proof Hst as Hst'. apply state_of_Some in Hst' as (m & Hi & Hm).
  rewrite (run_publish _ _ _ _ m) by done.
  eapply result_sat_impl; [ |
    apply (for_each_inv (λ w', extends w w' ∧ state_of i w' = Some (ev_state ev)))].
  - by intros w' [_ ?].
  - intros j w1 _ [He1 Hst1].
    assert (extends w1 (print (OPublishing i (ev_name ev) j) w1)) as Hp
      by apply extends_print.
    pose proof (run_extends n (CProcess j ev) (print (OPublishing i (ev_name ev) j) w1))
      as Hext.
    assert (result_sat (λ w', state_of i w' = Some (ev_state ev))
              (run n (CProcess j ev) (print (OPublishing i (ev_name ev) j) w1))) as Hkeep.
    { destruct (decide (j = i)) as [-> | Hne].
      - by apply process_own_state.
      - eapply result_sat_impl; [ | apply (run_frame i)]; [ | | done].
        + intros w2 Hf. eapply state_of_frame; [apply Hf | done].
        + eapply unsubscribed_extends; [ | apply Hu].
          by eapply extends_trans. }
    destruct (run n (CProcess j ev) _); simpl in *; try done;
      (split; [ | done]); eapply extends_trans; [ | apply Hext | | apply Hext];
      by eapply extends_trans.
  - split; [apply extends_refl | done].
Qed.

Lemma extends_events w w' j m ev :
  extends w w' → heap w !! j = Some m → ev ∈ m_events m →
  ∃ m', heap w' !! j = Some m' ∧ ev ∈ m_events m'.
Proof.
  intros [_ Hh] Hj Hev. specialize (Hh j). rewrite Hj in Hh.
  inversion Hh as [? m' Hm Hw |]; subst. exists m'. split; [done |].
  destruct (ext_events _ _ Hm) as [k ->]. apply elem_of_app. by left.
Qed.

(** [process_event] that returns has logged its event. *)
Lemma process_delivers n j ev w w' :
  run n (CProcess j ev) w = Ok w' →
  ∃ mj, heap w' !! j = Some mj ∧ ev ∈ m_events mj.
Proof.
  destruct n as [|n]; [done |]. rewrite run_unfold. cbn [step]. unfold process_event.
  destruct (heap w !! j) as [m|] eqn:Hj; [ | done].
  intros Hrun.
  assert (∃ c w1, run n c w1 = Ok w' ∧ heap w1 !! j = Some (append_event ev m))
    as (c & w1 & Hc & H1).
  { case_decide; eexists _, _; (split; [apply Hrun |]); simpl;
      by rewrite lookup_insert_eq. }
  pose proof (run_extends n c w1) as Hext. rewrite Hc in Hext. simpl in Hext.
  eapply extends_events; [done | done |].
  simpl. apply elem_of_app. right. by apply list_elem_of_singleton.
Qed.

(** A fan-out that returns has served every consumer. *)
Lemma fan_out_delivers n i ev (l : list nat) :
  ∀ w w',
  for_each (λ j w1, run n (CProcess j ev) (print (OPublishing i (ev_name ev) j) w1)) l w
    = Ok w' →
  ∀ j, j ∈ l → ∃ mj, heap w' !! j = Some mj ∧ ev ∈ m_events mj.
Proof.
  induction l as [|k l IH]; intros w w' Hrun j Hj; [by apply elem_of_nil in Hj |].
  simpl in Hrun.
  destruct (run n (CProcess k ev) _) as [w1 | |] eqn:Hk; try done. simpl in Hrun.
  apply elem_of_cons in Hj as [-> | Hj]; [ | by eapply IH].
  apply process_delivers in Hk as (mk & Hmk & Hev).
  pose proof (for_each_extends
    (λ j w1, run n (CProcess j ev) (print (OPublishing i (ev_name ev) j) w1)) l) as Hext.
  specialize (Hext (λ x w0, result_sat_extends_step _ _ _ (extends_print _ w0)
                               (run_extends n (CProcess x ev) _)) w1).
  rewrite Hrun in Hext. simpl in Hext.
  by eapply extends_events.
Qed.

(* ===================================================================== *)
(** ** The guard rule *)
(* ===================================================================== *)

Lemma disjoint_not_truthy (W states : gset State) :
  bool_decide (W ## states) = negb (set_truthy (W ∩ states)).
Proof.
  unfold set_truthy. destruct (decide (W ## states)) as [Hd | Hd].
  - rewrite bool_decide_eq_true_2 by done.
    rewrite bool_decide_eq_false_2; [done |]. intros H. apply H. set_solver.
  - rewrite bool_decide_eq_false_2 by done.
    rewrite bool_decide_eq_true_2; [done |]. intros H. apply Hd. set_solver.
Qed.

Lemma unless_rejects_meets (U states : gset State) :
  unless_rejects (Some U) states = bool_decide (U ∩ states ≠ ∅).
Proof.
  simpl. unfold set_truthy.
  destruct (decide (U ∩ states ≠ ∅)) as [Hm | Hm].
  - rewrite (bool_decide_eq_true_2 (U ∩ states ≠ ∅)) by done.
    rewrite bool_decide_eq_true_2; [done |]. intros ->. apply Hm. set_solver.
  - rewrite (bool_decide_eq_false_2 (U ∩ states ≠ ∅)) by done.
    apply andb_false_r.
Qed.

(** Away from the empty [when], the code and the specification agree. *)
Lemma spec_guard_allows_eq when unless states :
  when ≠ Some ∅ →
  spec_guard_allows when unless states =
  negb (when_rejects when states) && negb (unless_rejects unless states).
Proof.
  intros Hne. unfold spec_guard_allows.
  assert (∀ U, negb (bool_decide (U ∩ states ≠ ∅)) =
               negb (unless_rejects (Some U) states)) as HU.
  { intros U. by rewrite unless_rejects_meets. }
  destruct when as [W|].
  - assert (set_truthy W = true) as HW.
    { apply set_truthy_true. congruence. }
    cbn [when_rejects]. rewrite HW, disjoint_not_truthy. simpl.
    destruct (set_truthy (W ∩ states)); simpl; [ | done].
    destruct unless as [U|]; [apply HU | done].
  - simpl when_rejects. simpl negb. rewrite andb_true_l.
    destruct unless as [U|]; [apply HU | done].
Qed.

(** C3, as the specification words it, fails on an empty [when]: the set is
    present and disjoint from every observed state, yet the call is allowed. *)
Lemma C3_empty_when_allowed :
  (∅ : gset State) ## {[GREEN]} ∧
  spec_guard_allows (Some ∅) None {[GREEN]} = false ∧
  check_guard (Some ∅) None {[GREEN]} = Allow.
Proof. split; [set_solver | by vm_compute]. Qed.

(** C3 (amended): over the observed states (the current state and the last
    known state of every publisher), a non-empty [when] that is disjoint from
    them rejects; otherwise an [unless] that meets them rejects; otherwise
    the call is allowed, and with both absent it always is.  For [when]
    different from the empty set this is the rule of the specification.  An
    action or reaction with [when = {A}] and [unless = {A}] does not fire
    while [A] is observed. *)
Theorem C3_guard_order :
  (∀ m s, s ∈ states_of m ↔ s = m_state m ∨ ∃ p, publishers m !! p = Some s)
  ∧ (∀ when unless states,
       (check_guard when unless states = RejectWhen ↔
          ∃ W, when = Some W ∧ W ≠ ∅ ∧ W ## states)
       ∧ (check_guard when unless states = RejectUnless ↔
          ¬ (∃ W, when = Some W ∧ W ≠ ∅ ∧ W ## states) ∧
          ∃ U, unless = Some U ∧ U ∩ states ≠ ∅)
       ∧ (when = None → unless = None → check_guard when unless states = Allow)
       ∧ (when ≠ Some ∅ →
          (check_guard when unless states = Allow ↔
           spec_guard_allows when unless states = true)))
  ∧ (∀ n i f kwargs w m a A,
       heap w !! i = Some m →
       get_action f (c_namespace (m_class m)) = Some a →
       a_when a = Some {[A]} → a_unless a = Some {[A]} → A ∈ states_of m →
       run (S n) (CAction i f kwargs) w = Ok (print (OCannotWhen i f {[A]}) w))
  ∧ (∀ n i r ev w m A,
       heap w !! i = Some m →
       r_when r = Some {[A]} → r_unless r = Some {[A]} → A ∈ states_of m →
       run (S n) (CReaction i r ev) w =
       Ok (print (OCannotReactWhen i (r_name r) {[A]}) w)).
Proof.
  assert (∀ (A : State) states, A ∈ states →
            check_guard (Some {[A]}) (Some {[A]}) states = RejectUnless) as Hboth.
  { intros A states HA. apply check_guard_unless. split.
    - apply not_true_is_false. rewrite when_rejects_true.
      intros (W & [= <-] & _ & Hd). set_solver.
    - apply unless_rejects_true. exists {[A]}. split; [done | set_solver]. }
  split_and!.
  - apply elem_of_states_of.
  - intros when unless states. split_and!.
    + rewrite check_guard_when. apply when_rejects_true.
    + rewrite check_guard_unless, unless_rejects_true, <- when_rejects_true.
      by rewrite not_true_iff_false.
    + by intros -> ->.
    + intros Hne. rewrite check_guard_allow, spec_guard_allows_eq by done.
      rewrite andb_true_iff, !negb_true_iff. done.
  - intros n i f kwargs w m a A Hi Ha Hw Hu HA.
    rewrite (run_action _ _ _ _ _ m a) by done.
    rewrite Hw, Hu, Hboth by done. done.
  - intros n i r ev w m A Hi Hw Hu HA.
    rewrite (run_reaction _ _ _ _ _ m) by done.
    rewrite Hw, Hu, Hboth by done. done.
Qed.

Lemma C3_guard_order_witness :
  check_guard (Some {[GREEN]}) (Some {[PC_CHASING]}) {[GREEN; CYCLING]} = Allow ↔
  spec_guard_allows (Some {[GREEN]}) (Some {[PC_CHASING]}) {[GREEN; CYCLING]} = true.
Proof.
  destruct C3_guard_order as (_ & H & _).
  destruct (H (Some {[GREEN]}) (Some {[PC_CHASING]}) {[GREEN; CYCLING]})
    as (_ & _ & _ & H').
  apply H'. by intros [=].
Defined.

(** C10: an empty [when] never rejects and an empty [unless] never blocks:
    each behaves as an absent clause, for actions and for reactions, because
    a clause is consulted only when its set is truthy. *)
Theorem C10_empty_guard_sets :
  (∀ unless states,
     check_guard (Some ∅) unless states = check_guard None unless states ∧
     check_guard (Some ∅) unless states ≠ RejectWhen)
  ∧ (∀ when states,
     check_guard when (Some ∅) states = check_guard when None states ∧
     check_guard when (Some ∅) states ≠ RejectUnless)
  ∧ (∀ when unless states,
     when_rejects when states =
       opt_truthy when && negb (set_truthy (default ∅ when ∩ states)) ∧
     unless_rejects unless states =
       opt_truthy unless && set_truthy (default ∅ unless ∩ states))
  ∧ (∀ n i f kwargs w m a,
     heap w !! i = Some m →
     get_action f (c_namespace (m_class m)) = Some a →
     a_when a = Some ∅ → a_unless a = Some ∅ →
     run (S n) (CAction i f kwargs) w =
     bind (run n (CBody i f (a_body a)) w)
          (run n (CProcess i (action_event i f a m kwargs))))
  ∧ (∀ n i r ev w m,
     heap w !! i = Some m →
     r_when r = Some ∅ → r_unless r = Some ∅ →
     run (S n) (CReaction i r ev) w = run n (CBody i (r_name r) (r_body r)) w).
Proof.
  assert (∀ states, when_rejects (Some ∅) states = false) as Hw.
  { intros states. simpl. by rewrite set_truthy_empty. }
  assert (∀ states, unless_rejects (Some ∅) states = false) as Hu.
  { intros states. simpl. by rewrite set_truthy_empty. }
  split_and!.
  - intros unless states. unfold check_guard. rewrite Hw. cbn [when_rejects].
    split; [done |]. by destruct (unless_rejects unless states).
  - intros when states. unfold check_guard. rewrite Hu. cbn [unless_rejects].
    split; [done |]. by destruct (when_rejects when states).
  - by intros [W|] [U|] states.
  - intros n i f kwargs w m a Hi Ha Hwa Hua.
    rewrite (run_action _ _ _ _ _ m a) by done.
    rewrite Hwa, Hua. unfold check_guard. by rewrite Hw, Hu.
  - intros n i r ev w m Hi Hwr Hur.
    rewrite (run_reaction _ _ _ _ _ m) by done.
    rewrite Hwr, Hur. unfold check_guard. by rewrite Hw, Hu.
Qed.

Lemma C10_empty_guard_sets_witness :
  run 2 (CReaction 0 (mkReaction "on_red" RED (Some ∅) (Some ∅) [])
           (mkEvent "red" 7 RED None)) (lone_light YELLOW)
  = run 1 (CBody 0 "on_red" []) (lone_light YELLOW).
Proof.
  destruct C10_empty_guard_sets as (_ & _ & _ & _ & H).
  apply (H 1 0 (mkReaction "on_red" RED (Some ∅) (Some ∅) [])
           (mkEvent "red" 7 RED None) (lone_light YELLOW) (light_machine YELLOW)
           (lone_light_lookup YELLOW) eq_refl eq_refl).
Defined.

(* ===================================================================== *)
(** ** Declaration of a machine type *)
(* ===================================================================== *)

Lemma scan_namespace_app l1 l2 be rts :
  scan_namespace (l1 ++ l2) be rts =
  match scan_namespace l1 be rts with
  | Some (be', rts') => scan_namespace l2 be' rts'
  | None => None
  end.
Proof.
  revert be rts. induction l1 as [|[a|r|k] l1 IH]; intros be rts; simpl; try done.
  destruct (rts !! r_state r); [done | apply IH].
Qed.

(** Once a state has a reaction, a later reaction to it aborts the scan. *)
Lemma scan_namespace_taken l : ∀ be rts r,
  MReaction r ∈ l → is_Some (rts !! r_state r) → scan_namespace l be rts = None.
Proof.
  induction l as [|[a|r'|k] l IH]; intros be rts r Hin Hs.
  - by apply elem_of_nil in Hin.
  - apply elem_of_cons in Hin as [[=] | Hin]. simpl. by eapply IH.
  - simpl. apply elem_of_cons in Hin as [[= <-] | Hin].
    + by destruct Hs as [x ->].
    + destruct (rts !! r_state r') eqn:Hr'; [done |].
      eapply IH; [done |]. rewrite lookup_insert.
      case_decide; [done | by simplify_eq].
  - apply elem_of_cons in Hin as [[=] | Hin]. simpl. by eapply IH.
Qed.

Lemma scan_namespace_duplicate ns be rts i j r1 r2 :
  i < j →
  ns !! i = Some (MReaction r1) → ns !! j = Some (MReaction r2) →
  r_state r1 = r_state r2 →
  scan_namespace ns be rts = None.
Proof.
  intros Hlt Hi Hj Heq.
  rewrite <- (take_drop_middle ns i (MReaction r1)) by done.
  rewrite scan_namespace_app.
  destruct (scan_namespace (take i ns) be rts) as [[be' rts']|]; [ | done].
  simpl. destruct (rts' !! r_state r1); [done |].
  apply scan_namespace_taken with r2.
  - apply list_elem_of_lookup. exists (j - S i).
    rewrite lookup_drop. by replace (S i + (j - S i)) with j by lia.
  - rewrite <- Heq, lookup_insert_eq. by eexists.
Qed.

(** What a successful scan has registered. *)
Lemma scan_namespace_registered l : ∀ be rts be' rts',
  scan_namespace l be rts = Some (be', rts') →
  NoDup (reaction_triggers l)
  ∧ (∀ s, s ∈ reaction_triggers l → rts !! s = None)
  ∧ (∀ s r, rts' !! s = Some r ↔
            rts !! s = Some r ∨ (MReaction r ∈ l ∧ r_state r = s))
  ∧ (∀ f, f ∈ be' ↔
          f ∈ be ∨ ∃ a, MAction a ∈ l ∧ a_name a = f ∧ a_broadcast a = true).
Proof.
  induction l as [|[a|r|k] l IH]; intros be rts be' rts' Hscan; simpl in Hscan.
  - injection Hscan as <- <-. split_and!.
    + constructor.
    + intros s Hs. by apply elem_of_nil in Hs.
    + intros s r. split; [by left |]. intros [? | [Hin _]]; [done |].
      by apply elem_of_nil in Hin.
    + intros f. split; [by left |]. intros [? | (a & Hin & _)]; [done |].
      by apply elem_of_nil in Hin.
  - destruct (IH _ _ _ _ Hscan) as (Hnd & Hfree & Hreg & Hbe). split_and!; try done.
    + intros s r. rewrite Hreg. split.
      * intros [? | [Hin ?]]; [by left | right]. split; [by right | done].
      * intros [? | [Hin ?]]; [by left | right].
        apply elem_of_cons in Hin as [[=] | Hin]. done.
    + intros f. rewrite Hbe. split.
      * intros [Hf | (a' & Hin & Hn & Hb)].
        -- destruct (a_broadcast a) eqn:Hba; [ | by left].
           apply elem_of_app in Hf as [Hf | Hf]; [by left | right].
           apply list_elem_of_singleton in Hf as ->.
           exists a. split_and!; [by left | done | done].
        -- right. exists a'. split_and!; [by right | done | done].
      * intros [Hf | (a' & Hin & Hn & Hb)].
        -- left. destruct (a_broadcast a); [ | done]. apply elem_of_app. by left.
        -- apply elem_of_cons in Hin as [[= <-] | Hin].
           ++ left. rewrite Hb. apply elem_of_app. right.
              by apply list_elem_of_singleton.
           ++ right. by exists a'.
  - destruct (rts !! r_state r) eqn:Hr; [done |].
    destruct (IH _ _ _ _ Hscan) as (Hnd & Hfree & Hreg & Hbe).
    assert (r_state r ∉ reaction_triggers l) as Hnotin.
    { intros Hin. apply Hfree in Hin. by rewrite lookup_insert_eq in Hin. }
    split_and!.
    + simpl. by constructor.
    + intros s Hs. simpl in Hs. apply elem_of_cons in Hs as [-> | Hs]; [done |].
      specialize (Hfree s Hs). rewrite lookup_insert in Hfree.
      by case_decide.
    + intros s r0. rewrite Hreg. rewrite lookup_insert. split.
      * intros [Hl | [Hin ?]].
        -- case_decide; [ | by left]. simplify_eq. right. split; [by left | done].
        -- right. split; [by right | done].
      * intros [Hl | [Hin Hs]].
        -- left. case_decide; [congruence | done].
        -- apply elem_of_cons in Hin as [[= <-] | Hin].
           ++ left. by rewrite decide_True.
           ++ right. done.
    + intros f. rewrite Hbe. split.
      * intros [? | (a & Hin & ?)]; [by left | right].
        exists a. split; [by right | done].
      * intros [? | (a & Hin & ?)]; [by left | right].
        apply elem_of_cons in Hin as [[=] | Hin]. by exists a.
  - destruct (IH _ _ _ _ Hscan) as (Hnd & Hfree & Hreg & Hbe). split_and!; try done.
    + intros s r. rewrite Hreg. split.
      * intros [? | [Hin ?]]; [by left | right]. split; [by right | done].
      * intros [? | [Hin ?]]; [by left | right].
        apply elem_of_cons in Hin as [[=] | Hin]. done.
    + intros f. rewrite Hbe. split.
      * intros [? | (a & Hin & ?)]; [by left | right].
        exists a. split; [by right | done].
      * intros [? | (a & Hin & ?)]; [by left | right].
        apply elem_of_cons in Hin as [[=] | Hin]. by exists a.
Qed.

Lemma StateMachineMeta_new_duplicate name ts ns i j r1 r2 :
  i ≠ j →
  ns !! i = Some (MReaction r1) → ns !! j = Some (MReaction r2) →
  r_state r1 = r_state r2 →
  StateMachineMeta_new name ts ns = None.
Proof.
  intros Hne Hi Hj Heq. unfold StateMachineMeta_new.
  destruct (decide (i < j)).
  - by rewrite (scan_namespace_duplicate ns [] ∅ i j r1 r2).
  - by rewrite (scan_namespace_duplicate ns [] ∅ j i r2 r1) by (done || lia).
Qed.

Lemma dict_set_names x ns k :
  k ∈ member_name <$> dict_set x ns ↔ k = member_name x ∨ k ∈ member_name <$> ns.
Proof.
  induction ns as [|y ns IH]; simpl.
  - rewrite list_elem_of_singleton. split; [by left |].
    intros [? | H]; [done | by apply elem_of_nil in H].
  - case_decide as Hy; simpl; rewrite !elem_of_cons.
    + rewrite Hy. naive_solver.
    + rewrite IH. naive_solver.
Qed.

Lemma dict_set_NoDup x ns :
  NoDup (member_name <$> ns) → NoDup (member_name <$> dict_set x ns).
Proof.
  induction ns as [|y ns IH]; simpl; intros Hnd.
  - apply NoDup_singleton.
  - apply NoDup_cons in Hnd as [Hy Hnd]. case_decide as Hxy; simpl.
    + apply NoDup_cons. by rewrite <- Hxy.
    + apply NoDup_cons. split; [ | by apply IH].
      rewrite dict_set_names. intros [? | ?]; done.
Qed.

Lemma dict_set_elem x ns y :
  NoDup (member_name <$> ns) →
  y ∈ dict_set x ns ↔ y = x ∨ (y ∈ ns ∧ member_name y ≠ member_name x).
Proof.
  induction ns as [|z ns IH]; simpl; intros Hnd.
  - rewrite list_elem_of_singleton. split; [by left |].
    intros [? | [H _]]; [done | by apply elem_of_nil in H].
  - apply NoDup_cons in Hnd as [Hz Hnd]. case_decide as Hzx.
    + rewrite !elem_of_cons. split.
      * intros [? | Hy]; [by left | right]. split; [by right |].
        intros Heq. apply Hz. rewrite Hzx, <- Heq.
        apply list_elem_of_fmap. by exists y.
      * intros [? | [[-> | Hy] Hne]]; [by left | done | by right].
    + rewrite !elem_of_cons, IH by done. split.
      * intros [-> | [? | [? ?]]]; [right; split; [by left | done] | by left |].
        right. split; [by right | done].
      * intros [? | [[-> | Hy] Hne]]; [right; by left | by left |].
        right. right. done.
Qed.

Lemma dict_set_new x ns :
  member_name x ∉ member_name <$> ns → dict_set x ns = ns ++ [x].
Proof.
  induction ns as [|y ns IH]; simpl; intros Hx; [done |].
  apply not_elem_of_cons in Hx as [Hxy Hx].
  rewrite decide_False by done. by rewrite IH.
Qed.

Lemma namespace_NoDup class_body : ∀ acc,
  NoDup (member_name <$> acc) →
  NoDup (member_name <$> foldl (λ ns x, dict_set x ns) acc class_body).
Proof.
  induction class_body as [|x l IH]; intros acc Hnd; simpl; [done |].
  apply IH. by apply dict_set_NoDup.
Qed.

(** A definition whose name is bound to nothing else in the class body is an
    entry of the namespace. *)
Lemma namespace_keeps x class_body : ∀ acc,
  NoDup (member_name <$> acc) →
  x ∈ acc ∨ x ∈ class_body →
  (∀ y, y ∈ class_body → member_name y = member_name x → y = x) →
  x ∈ foldl (λ ns x, dict_set x ns) acc class_body.
Proof.
  induction class_body as [|z l IH]; intros acc Hnd Hin Hsole; simpl.
  - destruct Hin as [? | H]; [done | by apply elem_of_nil in H].
  - apply IH.
    + by apply dict_set_NoDup.
    + destruct Hin as [Hacc | Hl].
      * left. apply dict_set_elem; [done |].
        destruct (decide (member_name z = member_name x)) as [Hzx | Hzx].
        -- left. symmetry. apply Hsole; [by left | done].
        -- right. split; [done | congruence].
      * apply elem_of_cons in Hl as [-> | Hl]; [ | by right].
        left. apply dict_set_elem; [done | by left].
    + intros y Hy. apply Hsole. by right.
Qed.

Lemma namespace_distinct_names class_body : ∀ acc,
  NoDup (member_name <$> (acc ++ class_body)) →
  foldl (λ ns x, dict_set x ns) acc class_body = acc ++ class_body.
Proof.
  induction class_body as [|x l IH]; intros acc Hnd; simpl.
  - by rewrite app_nil_r.
  - rewrite dict_set_new.
    + rewrite IH; [by rewrite <- app_assoc | by rewrite <- app_assoc].
    + rewrite fmap_app in Hnd. apply NoDup_app in Hnd as (_ & Hdisj & _).
      intros Hin. apply (Hdisj _ Hin). simpl. by left.
Qed.

(** C8, as stated, fails when the two reaction bodies have the same name: the
    second [def] replaces the first in the namespace before the metaclass
    runs, the class statement succeeds, and the type reacts to GREEN with the
    second body. *)
Lemma C8_same_name_reactions_declared :
  match declare "Cyclist" []
          [ MReaction (mkReaction "on_light" GREEN None None [SCall "cycle_slow"]);
            MReaction (mkReaction "on_light" GREEN None None [SCall "stop"]) ] with
  | Some c =>
      c_namespace c = [ MReaction (mkReaction "on_light" GREEN None None [SCall "stop"]) ]
      ∧ reactions_to_state c !! GREEN
        = Some (mkReaction "on_light" GREEN None None [SCall "stop"])
  | None => False
  end.
Proof. vm_compute. by split. Qed.

(** C8 (amended): the namespace the metaclass receives has one entry per
    name (the class body itself when its names are distinct).  Two reaction
    bodies bound to the same trigger state under different names, each the
    only definition of its name in the class body, make the class statement
    fail, so no class object and hence no instance comes to exist.  A machine
    type that was declared has pairwise distinct trigger states among the
    reactions of its namespace, and for each of them exactly the reaction
    declared for it. *)
Theorem C8_distinct_reactions_one_trigger_rejected :
  (∀ class_body,
     NoDup (member_name <$> namespace_of class_body)
     ∧ (NoDup (member_name <$> class_body) → namespace_of class_body = class_body))
  ∧ (∀ name ts class_body r1 r2,
     MReaction r1 ∈ class_body → MReaction r2 ∈ class_body →
     r_name r1 ≠ r_name r2 →
     r_state r1 = r_state r2 →
     (∀ y, y ∈ class_body → member_name y = r_name r1 → y = MReaction r1) →
     (∀ y, y ∈ class_body → member_name y = r_name r2 → y = MReaction r2) →
     declare name ts class_body = None)
  ∧ (∀ name ts class_body c,
     declare name ts class_body = Some c →
     c_namespace c = namespace_of class_body
     ∧ NoDup (reaction_triggers (c_namespace c))
     ∧ (∀ i j r1 r2,
          c_namespace c !! i = Some (MReaction r1) →
          c_namespace c !! j = Some (MReaction r2) →
          r_state r1 = r_state r2 → i = j)
     ∧ (∀ s r, reactions_to_state c !! s = Some r ↔
               MReaction r ∈ c_namespace c ∧ r_state r = s)).
Proof.
  split_and!.
  - intros class_body. split.
    + apply namespace_NoDup. constructor.
    + intros Hnd. by apply (namespace_distinct_names class_body []).
  - intros name ts class_body r1 r2 H1 H2 Hnames Hstate Hsole1 Hsole2.
    assert (MReaction r1 ∈ namespace_of class_body) as Hn1.
    { apply namespace_keeps; [constructor | by right | done]. }
    assert (MReaction r2 ∈ namespace_of class_body) as Hn2.
    { apply namespace_keeps; [constructor | by right | done]. }
    apply list_elem_of_lookup in Hn1 as [i Hi].
    apply list_elem_of_lookup in Hn2 as [j Hj].
    apply (StateMachineMeta_new_duplicate name ts _ i j r1 r2); try done.
    intros ->. rewrite Hi in Hj. by injection Hj as ->.
  - intros name ts class_body c Hnew. unfold declare in Hnew.
    pose proof Hnew as Hscan. unfold StateMachineMeta_new in Hscan.
    destruct (scan_namespace (namespace_of class_body) [] ∅) as [[be rts]|] eqn:Hs;
      [ | done].
    injection Hscan as <-. simpl.
    destruct (scan_namespace_registered _ _ _ _ _ Hs) as (Hnd & _ & Hreg & _).
    split_and!; try done.
    + intros i j r1 r2 Hi Hj Heq. destruct (decide (i = j)) as [ | Hne]; [done |].
      by rewrite (StateMachineMeta_new_duplicate name ts _ i j r1 r2) in Hnew.
    + intros s r. rewrite Hreg, lookup_empty. naive_solver.
Qed.

Lemma C8_distinct_reactions_one_trigger_rejected_witness :
  declare "Cyclist" []
    [ MReaction (mkReaction "on_green_light" GREEN None None [SCall "cycle_slow"]);
      MAction (mkAction "stop" STOPPED false None None []);
      MReaction (mkReaction "on_green_again" GREEN None None [SCall "stop"]) ]
  = None.
Proof.
  destruct C8_distinct_reactions_one_trigger_rejected as (_ & H & _).
  apply (H _ _ _ (mkReaction "on_green_light" GREEN None None [SCall "cycle_slow"])
           (mkReaction "on_green_again" GREEN None None [SCall "stop"])).
  - by left.
  - right. right. by left.
  - done.
  - done.
  - intros y Hy Hname.
    repeat (apply elem_of_cons in Hy as [-> | Hy]; [done |]).
    by apply elem_of_nil in Hy.
  - intros y Hy Hname.
    repeat (apply elem_of_cons in Hy as [-> | Hy]; [done |]).
    by apply elem_of_nil in Hy.
Defined.

(* ===================================================================== *)
(** ** Wiring *)
(* ===================================================================== *)

(** [register] adds the given instances to the consumers and changes nothing
    else of the heap. *)
Lemma register_spec i cs : ∀ w m,
  heap w !! i = Some m →
  ∃ w' m', register i cs w = Ok w'
    ∧ heap w' = <[i := m']> (heap w)
    ∧ consumers m' = list_to_set cs ∪ consumers m
    ∧ m_state m' = m_state m ∧ publishers m' = publishers m
    ∧ m_events m' = m_events m.
Proof.
  unfold register. induction cs as [|c cs IH]; intros w m Hi; simpl.
  - exists w, m. split_and!; try done.
    + by rewrite insert_id.
    + set_solver.
  - rewrite Hi. simpl.
    edestruct (IH (set_machine i (add_consumer c m) (print (ORegistering i c) w)))
      as (w' & m' & Hrun & Hheap & Hcons & Hst & Hpub & Hev).
    { simpl. by rewrite lookup_insert_eq. }
    exists w', m'. split_and!; try done.
    + rewrite Hheap. simpl. by rewrite insert_insert_eq.
    + rewrite Hcons. simpl. set_solver.
Qed.

(** C9: [a.subscribe([b])] records the current state of [b] in
    [a.publishers[b]] and then registers [a] with [b]: afterwards [a] is among
    the consumers of [b], and the consumers of [a] are as before when [a] and
    [b] are two instances.  [register] unions the given instances into the
    consumers, so registering them again changes nothing. *)
Theorem C9_subscribe_register :
  (∀ a b w ma mb,
     heap w !! a = Some ma → heap w !! b = Some mb →
     subscribe a [b] w =
       register b [a] (set_machine a (set_publisher b (m_state mb) ma) w)
     ∧ ∃ w' ma' mb',
       subscribe a [b] w = Ok w'
       ∧ heap w' !! a = Some ma' ∧ heap w' !! b = Some mb'
       ∧ publishers ma' !! b = Some (m_state mb)
       ∧ a ∈ consumers mb'
       ∧ consumers mb' = {[a]} ∪ consumers mb
       ∧ (a ≠ b → consumers ma' = consumers ma))
  ∧ (∀ i cs w m,
     heap w !! i = Some m →
     ∃ w1 m1 w2 m2,
       register i cs w = Ok w1 ∧ heap w1 !! i = Some m1
       ∧ consumers m1 = list_to_set cs ∪ consumers m
       ∧ register i cs w1 = Ok w2 ∧ heap w2 !! i = Some m2
       ∧ consumers m2 = consumers m1).
Proof.
  split.
  - intros a b w ma mb Ha Hb.
    assert (subscribe a [b] w =
            register b [a] (set_machine a (set_publisher b (m_state mb) ma) w)) as Heq.
    { unfold subscribe. simpl. rewrite Ha, Hb.
      by destruct (register b [a] _). }
    split; [done |]. rewrite Heq.
    set (w0 := set_machine a (set_publisher b (m_state mb) ma) w).
    destruct (decide (a = b)) as [<- | Hne].
    + destruct (register_spec a [a] w0 (set_publisher a (m_state mb) ma))
        as (w' & m' & Hrun & Hheap & Hcons & Hst & Hpub & Hev).
      { subst w0. simpl. by rewrite lookup_insert_eq. }
      assert (heap w' !! a = Some m') as Hl by (rewrite Hheap; apply lookup_insert_eq).
      assert (mb = ma) as -> by congruence.
      exists w', m', m'. split_and!; try done.
      * rewrite Hpub. simpl. by rewrite lookup_insert_eq.
      * rewrite Hcons. set_solver.
      * rewrite Hcons. simpl. set_solver.
    + destruct (register_spec b [a] w0 mb)
        as (w' & m' & Hrun & Hheap & Hcons & Hst & Hpub & Hev).
      { subst w0. simpl. by rewrite lookup_insert_ne. }
      exists w', (set_publisher b (m_state mb) ma), m'. split_and!; try done.
      * rewrite Hheap, lookup_insert_ne by done. subst w0. simpl.
        by rewrite lookup_insert_eq.
      * rewrite Hheap. by rewrite lookup_insert_eq.
      * simpl. by rewrite lookup_insert_eq.
      * rewrite Hcons. set_solver.
      * rewrite Hcons. simpl. set_solver.
  - intros i cs w m Hi.
    destruct (register_spec i cs w m Hi)
      as (w1 & m1 & Hrun1 & Hheap1 & Hcons1 & _).
    assert (heap w1 !! i = Some m1) as Hl1 by (rewrite Hheap1; apply lookup_insert_eq).
    destruct (register_spec i cs w1 m1 Hl1)
      as (w2 & m2 & Hrun2 & Hheap2 & Hcons2 & _).
    exists w1, m1, w2, m2. split_and!; try done.
    + rewrite Hheap2. apply lookup_insert_eq.
    + rewrite Hcons2, Hcons1. set_solver.
Qed.

Lemma two_lights_lookup :
  heap two_lights !! 0 = Some (light_machine RED)
  ∧ heap two_lights !! 1 = Some (light_machine YELLOW).
Proof. by vm_compute. Qed.

Lemma C9_subscribe_register_witness :
  ∃ w' ma' mb',
    subscribe 1 [0] two_lights = Ok w'
    ∧ heap w' !! 1 = Some ma' ∧ heap w' !! 0 = Some mb'
    ∧ publishers ma' !! 0 = Some (m_state (light_machine RED))
    ∧ 1 ∈ consumers mb'
    ∧ consumers mb' = {[1]} ∪ consumers (light_machine RED)
    ∧ (1 ≠ 0 → consumers ma' = consumers (light_machine YELLOW)).
Proof.
  destruct C9_subscribe_register as [H _].
  destruct two_lights_lookup as [H0 H1].
  exact (proj2 (H 1 0 two_lights (light_machine YELLOW) (light_machine RED) H1 H0)).
Defined.

(* ===================================================================== *)
(** ** The light and the rider *)
(* ===================================================================== *)

Lemma drive_mono n k driver observed calls : ∀ w,
  (drive n driver observed calls w).2 ≠ OutOfFuel → n ≤ k →
  drive k driver observed calls w = drive n driver observed calls w.
Proof.
  induction calls as [|f calls IH]; intros w Hne Hle; simpl in *; [done |].
  destruct (run n (CAction driver f ∅) w) as [w' | e w' |] eqn:Hrun.
  - rewrite (run_mono n k) by (done || by rewrite Hrun). rewrite Hrun.
    destruct (drive n driver observed calls w') as [seen r] eqn:Hd.
    rewrite IH; [by rewrite Hd | by rewrite Hd | done].
  - rewrite (run_mono n k) by (done || by rewrite Hrun). by rewrite Hrun.
  - done.
Qed.

Lemma light_and_rider_mono n k light_state rider_state calls seen w :
  light_and_rider n light_state rider_state calls = Some (seen, Ok w) → n ≤ k →
  light_and_rider k light_state rider_state calls = Some (seen, Ok w).
Proof.
  unfold light_and_rider. intros H Hle.
  destruct (setup light_state rider_state) as [[[light rider] w0]|]; [ | done].
  simpl in *. injection H as H.
  rewrite (drive_mono n k); [by rewrite H | by rewrite H | done].
Qed.

(** C1, as stated, fails at its first step: the light starts at GREEN and has
    no edge GREEN -> RED, so [Light.red()] raises a [TransitionError], the
    rider is still CYCLING and nothing was delivered to it. *)
Lemma C1_red_from_green_raises :
  match setup GREEN CYCLING with
  | Some (light, rider, w) =>
      match run 16 (CAction light "red" ∅) w with
      | Raised e w' =>
          e = TransitionError
          ∧ state_of light w' = Some GREEN
          ∧ state_of rider w' = Some CYCLING
          ∧ events_of rider w' = Some []
      | _ => False
      end
  | None => False
  end
  ∧ fst <$> light_and_rider 16 GREEN CYCLING ["red"; "green"; "yellow"]
    ≠ Some [Some STOPPED; Some CYCLING; Some CYCLING].
Proof. vm_compute. repeat split; done. Qed.

Lemma scenario_report_mono n k light_state rider_state calls x :
  scenario_report (light_and_rider n light_state rider_state calls) = Some x →
  n ≤ k →
  scenario_report (light_and_rider k light_state rider_state calls) = Some x.
Proof.
  intros H Hle.
  destruct (light_and_rider n light_state rider_state calls)
    as [[seen [w| |]]|] eqn:Hrun; try done.
  by rewrite (light_and_rider_mono n k _ _ _ seen w).
Qed.

Lemma light_and_rider_11 :
  scenario_report (light_and_rider 11 YELLOW CYCLING ["red"; "green"; "yellow"])
  = Some ([Some STOPPED; Some CYCLING; Some CYCLING],
          Some (OProcessingFrom 1 "yellow" 0), Some YELLOW).
Proof. by vm_compute. Qed.

(** C1 (amended): with the light constructed at YELLOW, as in the scenario of
    the post, and the rider at CYCLING and subscribed to the light, driving
    [red], [green], [yellow] shows the rider STOPPED, CYCLING, CYCLING; the
    rider has no reaction for YELLOW, and the last thing that happens is its
    receipt of that relay (the light is instance 0, the rider instance 1). *)
Theorem C1_light_and_rider (fuel : nat) :
  11 ≤ fuel →
  (fst <$> setup YELLOW CYCLING) = Some (0, 1)
  ∧ scenario_report (light_and_rider fuel YELLOW CYCLING ["red"; "green"; "yellow"])
    = Some ([Some STOPPED; Some CYCLING; Some CYCLING],
            Some (OProcessingFrom 1 "yellow" 0), Some YELLOW)
  ∧ (c ← Cyclist; Some (reactions_to_state c !! YELLOW)) = Some None.
Proof.
  intros Hfuel. split; [by vm_compute | split; [ | by vm_compute]].
  apply (scenario_report_mono 11); [apply light_and_rider_11 | done].
Qed.

Lemma C1_light_and_rider_witness :
  scenario_report (light_and_rider 12 YELLOW CYCLING ["red"; "green"; "yellow"])
  = Some ([Some STOPPED; Some CYCLING; Some CYCLING],
          Some (OProcessingFrom 1 "yellow" 0), Some YELLOW).
Proof. apply (C1_light_and_rider 12). lia. Defined.

(* ===================================================================== *)
(** ** Invoking an action *)
(* ===================================================================== *)

Lemma body_runs_print i f o w :
  body_runs i f (print o w) =
  if decide (o = OBody i f) then S (body_runs i f w) else body_runs i f w.
Proof.
  unfold body_runs. simpl. rewrite filter_app, length_app.
  rewrite filter_cons, filter_nil. case_decide; simpl; lia.
Qed.

Lemma body_runs_set_machine i f j m w :
  body_runs i f (set_machine j m w) = body_runs i f w.
Proof. done. Qed.

Lemma body_runs_extends i f w w' :
  extends w w' → body_runs i f w ≤ body_runs i f w'.
Proof.
  intros [[k Hk] _]. unfold body_runs. rewrite Hk, filter_app, length_app. lia.
Qed.

(** A body that returns was entered. *)
Lemma run_body_marks n i f b w w1 :
  run n (CBody i f b) w = Ok w1 → S (body_runs i f w) ≤ body_runs i f w1.
Proof.
  intros Hrun. pose proof (run_extends n (CBody i f b) w) as Hext.
  destruct n as [|n]; [done |]. rewrite run_unfold in Hrun. cbn [step] in Hrun.
  unfold body in Hrun.
  pose proof (for_each_extends
    (λ s, match s with SCall g => run n (CAction i g ∅) end) b) as Hfe.
  specialize (Hfe (λ s w0, match s with SCall g => run_extends n _ w0 end)
                  (print (OBody i f) w)).
  rewrite Hrun in Hfe. simpl in Hfe. apply (body_runs_extends i f) in Hfe.
  rewrite body_runs_print, decide_True in Hfe by done. done.
Qed.

Lemma extends_logged i ev m w :
  heap w !! i = Some m → extends w (logged i ev m w).
Proof.
  intros Hi. unfold logged. eapply extends_trans; [ | apply extends_print].
  apply extends_set_machine with m; [done |].
  constructor; try done. simpl. by apply prefix_app_r.
Qed.

Lemma extends_moved i ev m w :
  heap w !! i = Some m → extends w (moved i ev m w).
Proof.
  intros Hi. unfold moved.
  eapply extends_trans; [apply extends_print |].
  eapply extends_trans; [apply extends_print |].
  apply extends_set_machine with m; [done |].
  constructor; try done. simpl. by apply prefix_app_r.
Qed.

Lemma state_of_logged i ev m w : state_of i (logged i ev m w) = Some (m_state m).
Proof. unfold state_of, logged. simpl. by rewrite lookup_insert_eq. Qed.

Lemma state_of_moved i ev m w : state_of i (moved i ev m w) = Some (ev_state ev).
Proof. unfold state_of, moved. simpl. by rewrite lookup_insert_eq. Qed.

Section ActionCall.
Variables (n i : nat) (f : string) (kwargs : gmap string string).
Variables (w w1 : World) (m m1 : Machine) (a : ActionFn).

Hypothesis instance : heap w !! i = Some m.
Hypothesis method : get_action f (c_namespace (m_class m)) = Some a.
Hypothesis guard_allows : check_guard (a_when a) (a_unless a) (states_of m) = Allow.
Hypothesis body_returns : run n (CBody i f (a_body a)) w = Ok w1.
Hypothesis instance_after : heap w1 !! i = Some m1.

Let ev := action_event i f a m kwargs.

(** The outcome of an admitted call, by what [process_event] finds. *)
Lemma action_outcome fuel :
  n + 3 ≤ fuel →
  run fuel (CAction i f kwargs) w =
  if decide (m_state m1 = a_state a) then Ok (logged i ev m1 w1)
  else if bool_decide (a_state a ∈ default [] (transitions_map m1 !! m_state m1))
  then if bool_decide (f ∈ broadcast_events (m_class m1))
       then run (fuel - 3) (CPublish i (relay_of i ev)) (moved i ev m1 w1)
       else Ok (moved i ev m1 w1)
  else Raised TransitionError (logged i ev m1 w1).
Proof using instance method guard_allows body_returns instance_after.
  intros Hfuel. destruct fuel as [|[|[|k]]]; try lia.
  rewrite (run_action _ _ _ _ _ m a) by done. rewrite guard_allows.
  rewrite (run_mono n (S (S k))); [ | by rewrite body_returns | lia].
  rewrite body_returns. cbn [bind].
  rewrite (run_process_internal _ _ _ _ m1) by done.
  replace (S (S (S k)) - 3) with k by lia. done.
Qed.
End ActionCall.

(** C2, as stated, fails in two ways.  A guarded action: a stopped cyclist
    that has seen a red light invokes [cycle_slow]; the edge STOPPED -> CYCLING
    is declared and the action targets CYCLING, but the guard rejects and the
    call returns with the cyclist still STOPPED.  A reaction chain that comes
    back: a closed door opens (CLOSED -> OPEN is declared, no guard), the alarm
    that observes it rings, the door that observes the alarm locks, and
    [door.open()] returns with the door LOCKED. *)
Lemma C2_action_may_not_end_at_target :
  match setup RED STOPPED with
  | Some (light, rider, w) =>
      a_state <$> (c ← Cyclist; get_action "cycle_slow" (c_namespace c)) = Some CYCLING
      ∧ (m ← heap w !! rider; transitions_map m !! STOPPED) = Some [CYCLING]
      ∧ state_of rider w = Some STOPPED
      ∧ match run 16 (CAction rider "cycle_slow" ∅) w with
        | Ok w' => state_of rider w' = Some STOPPED
        | _ => False
        end
  | None => False
  end
  ∧ match door_and_alarm with
    | Some (door, alarm, w) =>
        a_state <$> (c ← Door; get_action "open" (c_namespace c)) = Some DOOR_OPEN
        ∧ (m ← heap w !! door; transitions_map m !! DOOR_CLOSED) = Some [DOOR_OPEN]
        ∧ state_of door w = Some DOOR_CLOSED
        ∧ match run 32 (CAction door "open" ∅) w with
          | Ok w' => state_of door w' = Some DOOR_LOCKED
          | _ => False
          end
    | None => False
    end.
Proof. vm_compute. repeat split; done. Qed.

(** C2 (amended): an action whose guard admits the call and whose body
    leaves the instance at [A] is invoked.  If it targets [B], different from
    [A], with [A -> B] declared, the state becomes [B]: the call returns with
    the instance at [B] when the action is not broadcast or there is no
    consumer; when it is broadcast the fan-out starts from that world, and the
    instance still is at [B] when the call ends, provided no other instance
    delivers events to it.  If it targets [C], different from [A], with no
    edge [A -> C], a [TransitionError] reaches the caller and the state stays
    [A]. *)
Theorem C2_transition_law n i f kwargs w w1 m m1 a :
  heap w !! i = Some m →
  get_action f (c_namespace (m_class m)) = Some a →
  check_guard (a_when a) (a_unless a) (states_of m) = Allow →
  run n (CBody i f (a_body a)) w = Ok w1 →
  heap w1 !! i = Some m1 →
  a_state a ≠ m_state m1 →
  let ev := action_event i f a m kwargs in
  (a_state a ∈ default [] (transitions_map m1 !! m_state m1) →
     state_of i (moved i ev m1 w1) = Some (a_state a)
     ∧ ∀ fuel, n + 3 ≤ fuel →
       (f ∉ broadcast_events (m_class m1) ∨ consumers m1 = ∅ →
          run fuel (CAction i f kwargs) w = Ok (moved i ev m1 w1))
       ∧ (f ∈ broadcast_events (m_class m1) →
          run fuel (CAction i f kwargs) w =
          run (fuel - 3) (CPublish i (relay_of i ev)) (moved i ev m1 w1))
       ∧ (unsubscribed i w →
          result_sat (λ w', state_of i w' = Some (a_state a))
                     (run fuel (CAction i f kwargs) w)))
  ∧ (a_state a ∉ default [] (transitions_map m1 !! m_state m1) →
     state_of i (logged i ev m1 w1) = Some (m_state m1)
     ∧ ∀ fuel, n + 3 ≤ fuel →
       run fuel (CAction i f kwargs) w = Raised TransitionError (logged i ev m1 w1)).
Proof.
  intros Hi Ha Hg Hb H1 Hne ev.
  assert (0 < n) as Hn by (destruct n; [done | lia]).
  split.
  - intros Hedge. split; [apply state_of_moved |]. intros fuel Hfuel.
    pose proof (action_outcome n i f kwargs w w1 m m1 a Hi Ha Hg Hb H1 fuel Hfuel)
      as Hout.
    rewrite decide_False in Hout by done.
    rewrite bool_decide_eq_true_2 in Hout by done. fold ev in Hout.
    split_and!.
    + intros [Hnb | Hnc].
      * by rewrite bool_decide_eq_false_2 in Hout.
      * rewrite Hout. case_bool_decide; [ | done].
        destruct (fuel - 3) as [|k] eqn:Hk; [lia |].
        erewrite run_publish; [ | unfold moved; simpl; apply lookup_insert_eq].
        simpl. by rewrite Hnc, elements_empty.
    + intros Hbc. by rewrite bool_decide_eq_true_2 in Hout.
    + intros Hu. rewrite Hout. case_bool_decide; [ | apply state_of_moved].
      apply (publish_keeps_state i (fuel - 3) (relay_of i ev)).
      * eapply unsubscribed_extends; [ | apply Hu].
        pose proof (run_extends n (CBody i f (a_body a)) w) as Hext.
        rewrite Hb in Hext. eapply extends_trans; [apply Hext |].
        by apply extends_moved.
      * done.
      * apply state_of_moved.
  - intros Hedge. split; [apply state_of_logged |]. intros fuel Hfuel.
    rewrite (action_outcome n i f kwargs w w1 m m1 a) by done.
    rewrite decide_False by done. by rewrite bool_decide_eq_false_2.
Qed.

Lemma C2_transition_law_witness :
  run 4 (CAction 0 "red" ∅) (lone_light YELLOW) =
  Ok (moved 0 (action_event 0 "red" (mkAction "red" RED true None None [])
                 (light_machine YELLOW) ∅)
        (light_machine YELLOW) (print (OBody 0 "red") (lone_light YELLOW)))
  ∧ run 4 (CAction 0 "green" ∅) (lone_light YELLOW) =
    Raised TransitionError
      (logged 0 (action_event 0 "green" (mkAction "green" GREEN true None None [])
                   (light_machine YELLOW) ∅)
         (light_machine YELLOW) (print (OBody 0 "green") (lone_light YELLOW))).
Proof.
  split.
  - pose proof (C2_transition_law 1 0 "red" ∅ (lone_light YELLOW)
                  (print (OBody 0 "red") (lone_light YELLOW))
                  (light_machine YELLOW) (light_machine YELLOW)
                  (mkAction "red" RED true None None [])
                  (lone_light_lookup YELLOW) eq_refl eq_refl eq_refl
                  (lone_light_lookup YELLOW)) as H.
    specialize (H ltac:(done)). destruct H as [H _].
    specialize (H ltac:(apply (bool_decide_unpack _); by vm_compute)).
    destruct H as [_ H]. specialize (H 4 ltac:(lia)). destruct H as [H _].
    apply H. by right.
  - pose proof (C2_transition_law 1 0 "green" ∅ (lone_light YELLOW)
                  (print (OBody 0 "green") (lone_light YELLOW))
                  (light_machine YELLOW) (light_machine YELLOW)
                  (mkAction "green" GREEN true None None [])
                  (lone_light_lookup YELLOW) eq_refl eq_refl eq_refl
                  (lone_light_lookup YELLOW)) as H.
    specialize (H ltac:(done)). destruct H as [_ H].
    specialize (H ltac:(apply (bool_decide_unpack _); by vm_compute)).
    destruct H as [_ H]. apply H. lia.
Defined.

(** C6, as stated, fails in two ways.  A guarded action: a cyclist that is
    CYCLING and has seen a red light invokes [cycle_slow], whose target is
    CYCLING; the guard rejects the call and no event is appended to the log.
    A body that moves the instance: a flip at A invokes [stay_a], whose target
    is A and which has no guard; its body calls the broadcast action [go_b],
    so the subscribed light receives a relay, and the flip is moved to B and
    back to A before the call returns. *)
Lemma C6_target_equal_is_not_always_noop :
  match setup RED CYCLING with
  | Some (light, rider, w) =>
      a_state <$> (c ← Cyclist; get_action "cycle_slow" (c_namespace c)) = Some CYCLING
      ∧ state_of rider w = Some CYCLING
      ∧ events_of rider w = Some []
      ∧ match run 16 (CAction rider "cycle_slow" ∅) w with
        | Ok w' => state_of rider w' = Some CYCLING ∧ events_of rider w' = Some []
        | _ => False
        end
  | None => False
  end
  ∧ match flip_and_light with
    | Some (flip, light, w) =>
        (c ← Flip; a ← get_action "stay_a" (c_namespace c);
         Some (a_state a, a_when a, a_unless a)) = Some (FLIP_A, None, None)
        ∧ state_of flip w = Some FLIP_A
        ∧ events_of light w = Some []
        ∧ match run 16 (CAction flip "stay_a" ∅) w with
          | Ok w' =>
              state_of flip w' = Some FLIP_A
              ∧ events_of flip w'
                = Some [ mkEvent "go_b" flip FLIP_B (Some ∅);
                         mkEvent "stay_a" flip FLIP_A (Some ∅) ]
              ∧ events_of light w' = Some [ mkEvent "go_b" flip FLIP_B (Some ∅) ]
          | _ => False
          end
    | None => False
    end.
Proof. vm_compute. repeat split; done. Qed.

(** C6 (amended): an action whose guard admits the call and whose target is
    the state the instance is in when the body of the action has run is a
    no-op but for the log: the call returns, the state is unchanged, the event
    is appended to the event log of the instance, every other instance is as
    the body left it and the only output after the body is the "processing"
    line, whether or not the action is flagged broadcast. *)
Theorem C6_idempotent_action n i f kwargs w w1 m m1 a :
  heap w !! i = Some m →
  get_action f (c_namespace (m_class m)) = Some a →
  check_guard (a_when a) (a_unless a) (states_of m) = Allow →
  run n (CBody i f (a_body a)) w = Ok w1 →
  heap w1 !! i = Some m1 →
  m_state m1 = a_state a →
  let ev := action_event i f a m kwargs in
  ∀ fuel, n + 3 ≤ fuel →
    run fuel (CAction i f kwargs) w = Ok (logged i ev m1 w1)
    ∧ state_of i (logged i ev m1 w1) = Some (m_state m1)
    ∧ events_of i (logged i ev m1 w1) = Some (m_events m1 ++ [ev])
    ∧ (∀ j, j ≠ i → heap (logged i ev m1 w1) !! j = heap w1 !! j)
    ∧ out (logged i ev m1 w1) = out w1 ++ [OProcessing i f].
Proof.
  intros Hi Ha Hg Hb H1 Heq ev fuel Hfuel. split_and!.
  - rewrite (action_outcome n i f kwargs w w1 m m1 a) by done.
    by rewrite decide_True.
  - apply state_of_logged.
  - unfold events_of, logged. simpl. by rewrite lookup_insert_eq.
  - intros j Hj. unfold logged. simpl. by rewrite lookup_insert_ne.
  - done.
Qed.

Lemma C6_idempotent_action_witness :
  run 4 (CAction 0 "yellow" ∅) (lone_light YELLOW) =
  Ok (logged 0 (action_event 0 "yellow" (mkAction "yellow" YELLOW true None None [])
                  (light_machine YELLOW) ∅)
        (light_machine YELLOW) (print (OBody 0 "yellow") (lone_light YELLOW))).
Proof.
  pose proof (C6_idempotent_action 1 0 "yellow" ∅ (lone_light YELLOW)
                (print (OBody 0 "yellow") (lone_light YELLOW))
                (light_machine YELLOW) (light_machine YELLOW)
                (mkAction "yellow" YELLOW true None None [])
                (lone_light_lookup YELLOW) eq_refl eq_refl eq_refl
                (lone_light_lookup YELLOW) eq_refl 4) as H.
  specialize (H ltac:(lia)). by destruct H as [H _].
Defined.

(** C4: the body of an action runs only if the guard admitted the call (a
    rejected call returns after one diagnostic line, the body not entered);
    an admitted call enters the body once and only then hands the event to
    [process_event]; if the target is then found unreachable, the
    [TransitionError] is raised from the world the body left, which is kept:
    nothing of what the body did is undone.  For a body that calls nothing
    the body was entered exactly once more when the error is raised. *)
Theorem C4_body_before_legality n i f kwargs w m a :
  heap w !! i = Some m →
  get_action f (c_namespace (m_class m)) = Some a →
  let ev := action_event i f a m kwargs in
  (check_guard (a_when a) (a_unless a) (states_of m) ≠ Allow →
     ∃ o, run (S n) (CAction i f kwargs) w = Ok (print o w)
          ∧ body_runs i f (print o w) = body_runs i f w)
  ∧ (check_guard (a_when a) (a_unless a) (states_of m) = Allow →
     run (S n) (CAction i f kwargs) w =
       bind (run n (CBody i f (a_body a)) w) (run n (CProcess i ev))
     ∧ (∀ w1 m1,
          run n (CBody i f (a_body a)) w = Ok w1 →
          heap w1 !! i = Some m1 →
          a_state a ≠ m_state m1 →
          a_state a ∉ default [] (transitions_map m1 !! m_state m1) →
          S (body_runs i f w) ≤ body_runs i f w1
          ∧ extends w1 (logged i ev m1 w1)
          ∧ body_runs i f (logged i ev m1 w1) = body_runs i f w1
          ∧ ∀ fuel, n + 3 ≤ fuel →
              run fuel (CAction i f kwargs) w =
              Raised TransitionError (logged i ev m1 w1))
     ∧ (a_body a = [] →
        a_state a ≠ m_state m →
        a_state a ∉ default [] (transitions_map m !! m_state m) →
        ∀ fuel, 4 ≤ fuel →
          run fuel (CAction i f kwargs) w =
          Raised TransitionError (logged i ev m (print (OBody i f) w))
          ∧ body_runs i f (logged i ev m (print (OBody i f) w))
            = S (body_runs i f w))).
Proof.
  intros Hi Ha ev.
  assert (∀ w1 m1,
          check_guard (a_when a) (a_unless a) (states_of m) = Allow →
          run n (CBody i f (a_body a)) w = Ok w1 →
          heap w1 !! i = Some m1 →
          a_state a ≠ m_state m1 →
          a_state a ∉ default [] (transitions_map m1 !! m_state m1) →
          ∀ fuel, n + 3 ≤ fuel →
            run fuel (CAction i f kwargs) w =
            Raised TransitionError (logged i ev m1 w1)) as Hraise.
  { intros w1 m1 Hg Hb H1 Hne Hedge fuel Hfuel.
    rewrite (action_outcome n i f kwargs w w1 m m1 a) by done.
    rewrite decide_False by done. by rewrite bool_decide_eq_false_2. }
  split.
  - intros Hg. rewrite (run_action _ _ _ _ _ m a) by done.
    destruct (check_guard _ _ _); [done | |]; eexists; (split; [done |]);
      by rewrite body_runs_print, decide_False.
  - intros Hg. split_and!.
    + rewrite (run_action _ _ _ _ _ m a) by done. by rewrite Hg.
    + intros w1 m1 Hb H1 Hne Hedge. split_and!.
      * by eapply run_body_marks.
      * by apply extends_logged.
      * unfold logged. by rewrite body_runs_print, decide_False.
      * by apply Hraise.
    + intros Hnil Hne Hedge fuel Hfuel. split.
      * rewrite (action_outcome 1 i f kwargs w (print (OBody i f) w) m m a);
          try done; [ | by rewrite Hnil].
        rewrite decide_False by done. by rewrite bool_decide_eq_false_2.
      * unfold logged. rewrite body_runs_print, decide_False by done.
        rewrite body_runs_set_machine, body_runs_print. by rewrite decide_True.
Qed.

Lemma C4_body_before_legality_witness :
  run 4 (CAction 0 "green" ∅) (lone_light YELLOW) =
  Raised TransitionError
    (logged 0 (action_event 0 "green" (mkAction "green" GREEN true None None [])
                 (light_machine YELLOW) ∅)
       (light_machine YELLOW) (print (OBody 0 "green") (lone_light YELLOW)))
  ∧ body_runs 0 "green"
      (logged 0 (action_event 0 "green" (mkAction "green" GREEN true None None [])
                   (light_machine YELLOW) ∅)
         (light_machine YELLOW) (print (OBody 0 "green") (lone_light YELLOW)))
    = S (body_runs 0 "green" (lone_light YELLOW)).
Proof.
  pose proof (C4_body_before_legality 3 0 "green" ∅ (lone_light YELLOW)
                (light_machine YELLOW) (mkAction "green" GREEN true None None [])
                (lone_light_lookup YELLOW) eq_refl) as H.
  destruct H as [_ H]. specialize (H eq_refl). destruct H as (_ & _ & H).
  apply H; [done | done | | lia].
  apply (bool_decide_unpack _). by vm_compute.
Defined.

(* ===================================================================== *)
(** ** Broadcast *)
(* ===================================================================== *)

Lemma get_action_elem f ns a :
  get_action f ns = Some a → MAction a ∈ ns ∧ a_name a = f.
Proof.
  induction ns as [|[a'|r|k] ns IH]; simpl; intros H; try done.
  - case_decide.
    + injection H as ->. split; [by left | done].
    + destruct (IH H). split; [by right | done].
  - destruct (IH H). split; [by right | done].
  - destruct (IH H). split; [by right | done].
Qed.

Lemma namespace_key_unique ns x y :
  NoDup (member_name <$> ns) → x ∈ ns → y ∈ ns →
  member_name x = member_name y → x = y.
Proof.
  intros Hnd Hx Hy Heq.
  apply list_elem_of_lookup in Hx as [i Hi]. apply list_elem_of_lookup in Hy as [j Hj].
  assert (i = j) as ->.
  { eapply NoDup_lookup; [apply Hnd | |].
    - by rewrite list_lookup_fmap, Hi.
    - by rewrite list_lookup_fmap, Hj, Heq. }
  congruence.
Qed.

Lemma for_each_app {A} (f : A → World → Result) (l1 l2 : list A) w :
  for_each f (l1 ++ l2) w = bind (for_each f l1 w) (for_each f l2).
Proof.
  revert w. induction l1 as [|x l1 IH]; intros w; simpl; [done |].
  destruct (f x w); simpl; [apply IH | done | done].
Qed.

(** The names the metaclass records are those of the actions declared with
    [broadcast=True]. *)
Lemma broadcast_events_declared name ts ns c f a :
  StateMachineMeta_new name ts ns = Some c →
  NoDup (member_name <$> ns) →
  get_action f ns = Some a →
  f ∈ broadcast_events c ↔ a_broadcast a = true.
Proof.
  unfold StateMachineMeta_new. intros Hnew Hnd Ha.
  destruct (scan_namespace ns [] ∅) as [[be rts]|] eqn:Hscan; [ | done].
  injection Hnew as <-. simpl.
  destruct (scan_namespace_registered _ _ _ _ _ Hscan) as (_ & _ & _ & Hbe).
  apply get_action_elem in Ha as [Hin Hname].
  rewrite Hbe. split.
  - intros [Hf | (a' & Hin' & Hname' & Hb)]; [by apply elem_of_nil in Hf |].
    assert (MAction a' = MAction a) as [= ->]; [ | done].
    apply (namespace_key_unique ns); try done. simpl. congruence.
  - intros Hb. right. by exists a.
Qed.

(** C5, as stated, fails when a consumer raises: a red light has two closed
    gates as consumers and [green] is a broadcast action; the light moves to
    GREEN, the gate served first raises a [TransitionError] from its reaction,
    the error reaches the caller and the other gate never receives the
    relay. *)
Lemma C5_raising_consumer_ends_fan_out :
  match light_and_two_gates with
  | Some (light, g1, g2, w) =>
      (m ← heap w !! light;
       Some (bool_decide (g1 ∈ consumers m), bool_decide (g2 ∈ consumers m)))
      = Some (true, true)
      ∧ (c ← TrafficLight; Some (bool_decide ("green" ∈ broadcast_events c)))
        = Some true
      ∧ state_of light w = Some RED
      ∧ match run 16 (CAction light "green" ∅) w with
        | Raised e w' =>
            e = TransitionError
            ∧ state_of light w' = Some GREEN
            ∧ (events_of g1 w' = Some [] ∨ events_of g2 w' = Some [])
        | _ => False
        end
  | None => False
  end.
Proof. vm_compute. repeat split; try done. by left. Qed.

(** C5 (amended): when an internal event moves an instance along a declared
    edge and its name is that of a broadcast action, [process_event] fans one
    relay, with the same name, the new state and the same metadata, out to
    the consumers: one [process_event] call per member of the set, in one
    pass, started when the instance already is in the new state.  When the
    triggering call returns, every consumer has the relay in its log; an
    exception raised while one consumer handles the relay ends the fan-out
    and reaches the caller.  An event whose name is not that of a broadcast
    action moves the instance and touches no other instance.  The names the
    metaclass records as broadcast are exactly those of the actions declared
    with [broadcast=True]. *)
Theorem C5_broadcast_law :
  (∀ name ts ns c f a,
     StateMachineMeta_new name ts ns = Some c →
     NoDup (member_name <$> ns) →
     get_action f ns = Some a →
     f ∈ broadcast_events c ↔ a_broadcast a = true)
  ∧ (∀ n i ev w m,
     heap w !! i = Some m →
     ev_source ev = i →
     m_state m ≠ ev_state ev →
     ev_state ev ∈ default [] (transitions_map m !! m_state m) →
     (ev_name ev ∈ broadcast_events (m_class m) →
        run (S (S (S n))) (CProcess i ev) w =
          for_each (λ j w', run n (CProcess j (relay_of i ev))
                                (print (OPublishing i (ev_name ev) j) w'))
                   (elements (consumers m)) (moved i ev m w)
        ∧ NoDup (elements (consumers m))
        ∧ (∀ j, j ∈ elements (consumers m) ↔ j ∈ consumers m)
        ∧ relay_of i ev = mkEvent (ev_name ev) i (ev_state ev) (ev_meta ev)
        ∧ state_of i (moved i ev m w) = Some (ev_state ev)
        ∧ ∀ w', run (S (S (S n))) (CProcess i ev) w = Ok w' →
                ∀ j, j ∈ consumers m →
                     ∃ mj, heap w' !! j = Some mj ∧ relay_of i ev ∈ m_events mj)
     ∧ (ev_name ev ∉ broadcast_events (m_class m) →
        run (S (S n)) (CProcess i ev) w = Ok (moved i ev m w)
        ∧ (∀ j, j ≠ i → heap (moved i ev m w) !! j = heap w !! j)
        ∧ out (moved i ev m w) =
          out w ++ [OProcessing i (ev_name ev);
                    OTransitioning i (m_state m) (ev_state ev)]))
  ∧ (∀ n i f kwargs w w1 m m1 a fuel,
     heap w !! i = Some m →
     get_action f (c_namespace (m_class m)) = Some a →
     check_guard (a_when a) (a_unless a) (states_of m) = Allow →
     run n (CBody i f (a_body a)) w = Ok w1 →
     heap w1 !! i = Some m1 →
     m_state m1 ≠ a_state a →
     a_state a ∈ default [] (transitions_map m1 !! m_state m1) →
     n + 3 ≤ fuel →
     let ev := action_event i f a m kwargs in
     (f ∈ broadcast_events (m_class m1) →
        ∀ w', run fuel (CAction i f kwargs) w = Ok w' →
              ∀ j, j ∈ consumers m1 →
                   ∃ mj, heap w' !! j = Some mj ∧ relay_of i ev ∈ m_events mj)
     ∧ (f ∉ broadcast_events (m_class m1) →
        run fuel (CAction i f kwargs) w = Ok (moved i ev m1 w1)
        ∧ ∀ j, j ≠ i → heap (moved i ev m1 w1) !! j = heap w1 !! j))
  ∧ (∀ n i ev served j rest w w1 e w2,
     let deliver := λ k w', run n (CProcess k ev)
                                (print (OPublishing i (ev_name ev) k) w') in
     for_each deliver served w = Ok w1 →
     deliver j w1 = Raised e w2 →
     for_each deliver (served ++ j :: rest) w = Raised e w2).
Proof.
  split; [apply broadcast_events_declared |].
  rewrite (assoc and). split; [ |
    intros n i ev served j rest w w1 e w2 deliver Hserved Hraise;
    rewrite for_each_app, Hserved; simpl; by rewrite Hraise ].
  split; [ |
    intros n i f kwargs w w1 m m1 a fuel Hi Ha Hg Hb H1 Hne Hedge Hfuel ev;
    pose proof (action_outcome n i f kwargs w w1 m m1 a Hi Ha Hg Hb H1 fuel Hfuel)
      as Hout;
    rewrite decide_False in Hout by done;
    rewrite bool_decide_eq_true_2 in Hout by done; fold ev in Hout; split ].
  3: { intros Hnb. rewrite bool_decide_eq_false_2 in Hout by done.
       split; [done |]. intros j Hj. unfold moved. simpl.
       by rewrite lookup_insert_ne. }
  2: { intros Hb' w' Hrun j Hj. rewrite bool_decide_eq_true_2 in Hout by done.
       rewrite Hout in Hrun. destruct (fuel - 3) as [|k]; [done |].
       erewrite run_publish in Hrun;
         [ | unfold moved; simpl; apply lookup_insert_eq].
       eapply (fan_out_delivers k i (relay_of i ev)); [apply Hrun |].
       by apply elem_of_elements. }
  intros n i ev w m Hi Hs Hne Hedge. split.
  - intros Hb.
    assert (run (S (S (S n))) (CProcess i ev) w =
            for_each (λ j w', run n (CProcess j (relay_of i ev))
                                  (print (OPublishing i (ev_name ev) j) w'))
                     (elements (consumers m)) (moved i ev m w)) as Heq.
    { rewrite (run_process_internal _ _ _ _ m) by done.
      rewrite decide_False by done.
      rewrite !bool_decide_eq_true_2 by done.
      erewrite run_publish; [ | unfold moved; simpl; apply lookup_insert_eq].
      done. }
    split_and!; try done.
    + apply NoDup_elements.
    + intros j. apply elem_of_elements.
    + apply state_of_moved.
    + intros w' Hrun j Hj. rewrite Heq in Hrun.
      eapply (fan_out_delivers n i (relay_of i ev)); [apply Hrun |].
      by apply elem_of_elements.
  - intros Hnb. split_and!.
    + rewrite (run_process_internal _ _ _ _ m) by done.
      rewrite decide_False by done.
      rewrite bool_decide_eq_true_2 by done.
      by rewrite bool_decide_eq_false_2.
    + intros j Hj. unfold moved. simpl. by rewrite lookup_insert_ne.
    + unfold moved. simpl. by rewrite <- app_assoc.
Qed.

Lemma C5_broadcast_law_witness :
  ∃ w', run 5 (CProcess 0 (mkEvent "red" 0 RED None)) (watched_light YELLOW) = Ok w'
        ∧ ∃ mj, heap w' !! 0 = Some mj ∧ mkEvent "red" 0 RED None ∈ m_events mj.
Proof.
  eexists. split; [vm_compute; reflexivity |].
  destruct C5_broadcast_law as (_ & H & _ & _).
  specialize (H 2 0 (mkEvent "red" 0 RED None) (watched_light YELLOW)
                (add_consumer 0 (light_machine YELLOW)) eq_refl eq_refl
                ltac:(done) ltac:(apply (bool_decide_unpack _); by vm_compute)).
  destruct H as [H _].
  specialize (H ltac:(apply (bool_decide_unpack _); by vm_compute)).
  destruct H as (_ & _ & _ & _ & _ & H).
  apply (H _ ltac:(vm_compute; reflexivity) 0).
  apply (bool_decide_unpack _). by vm_compute.
Defined.

(* ===================================================================== *)
(** ** External events *)
(* ===================================================================== *)

(** C7: an event from another instance first records the state of its source
    in [publishers], whatever follows.  With no reaction registered for that
    state the call returns with nothing else changed and no error.  With a
    reaction, its guard is evaluated on the observed states after the update,
    which therefore contain the state just received; the body is entered only
    if the guard allows, and a rejected reaction returns after one diagnostic
    line. *)
Theorem C7_external_event n i ev w m :
  heap w !! i = Some m →
  ev_source ev ≠ i →
  let m1 := set_publisher (ev_source ev) (ev_state ev) (append_event ev m) in
  heap (observed i ev m w) !! i = Some m1
  ∧ publishers m1 !! ev_source ev = Some (ev_state ev)
  ∧ ev_state ev ∈ states_of m1
  ∧ match reactions_to_state (m_class m) !! ev_state ev with
    | None => run (S (S n)) (CProcess i ev) w = Ok (observed i ev m w)
    | Some r =>
        match check_guard (r_when r) (r_unless r) (states_of m1) with
        | Allow =>
            run (S (S (S n))) (CProcess i ev) w =
              run n (CBody i (r_name r) (r_body r)) (observed i ev m w)
            ∧ ∀ w', run (S (S (S n))) (CProcess i ev) w = Ok w' →
                    S (body_runs i (r_name r) w) ≤ body_runs i (r_name r) w'
        | RejectWhen =>
            run (S (S (S n))) (CProcess i ev) w =
              Ok (print (OCannotReactUnless i (r_name r) (default ∅ (r_when r)))
                        (observed i ev m w))
            ∧ body_runs i (r_name r)
                (print (OCannotReactUnless i (r_name r) (default ∅ (r_when r)))
                       (observed i ev m w))
              = body_runs i (r_name r) w
        | RejectUnless =>
            run (S (S (S n))) (CProcess i ev) w =
              Ok (print (OCannotReactWhen i (r_name r) (default ∅ (r_unless r)))
                        (observed i ev m w))
            ∧ body_runs i (r_name r)
                (print (OCannotReactWhen i (r_name r) (default ∅ (r_unless r)))
                       (observed i ev m w))
              = body_runs i (r_name r) w
        end
    end.
Proof.
  intros Hi Hs m1.
  assert (heap (observed i ev m w) !! i = Some m1) as H1 by apply observed_lookup.
  split_and!; [done | simpl; apply lookup_insert_eq | | ].
  - apply elem_of_states_of. right. exists (ev_source ev). simpl.
    apply lookup_insert_eq.
  - destruct (reactions_to_state (m_class m) !! ev_state ev) as [r|] eqn:Hr.
    + assert (body_runs i (r_name r) (observed i ev m w) = body_runs i (r_name r) w)
        as Hruns.
      { unfold observed. rewrite body_runs_set_machine, body_runs_print.
        by rewrite decide_False. }
      assert (run (S (S (S n))) (CProcess i ev) w =
              run (S n) (CReaction i r ev) (observed i ev m w)) as Heq.
      { rewrite (run_process_external _ _ _ _ m) by done. by rewrite Hr. }
      rewrite Heq. rewrite (run_reaction _ _ _ _ _ m1) by done.
      destruct (check_guard _ _ _).
      * split; [done |]. intros w' Hrun. rewrite <- Hruns.
        by eapply run_body_marks.
      * split; [done |]. by rewrite body_runs_print, decide_False.
      * split; [done |]. by rewrite body_runs_print, decide_False.
    + rewrite (run_process_external _ _ _ _ m) by done. by rewrite Hr.
Qed.

Lemma C7_external_event_witness :
  run 2 (CProcess 0 (mkEvent "chase" 7 PC_CHASING None)) (lone_light YELLOW)
  = Ok (observed 0 (mkEvent "chase" 7 PC_CHASING None) (light_machine YELLOW)
          (lone_light YELLOW)).
Proof.
  pose proof (C7_external_event 0 0 (mkEvent "chase" 7 PC_CHASING None)
                (lone_light YELLOW) (light_machine YELLOW)
                (lone_light_lookup YELLOW) ltac:(done)) as H.
  destruct H as (_ & _ & _ & H). exact H.
Defined.

(* ===================================================================== *)
(** ** The adjacency built by the constructor *)
(* ===================================================================== *)

Lemma edge_append_destination k v tm A B :
  edge (append_destination k v tm) A B ↔ edge tm A B ∨ (k = A ∧ v = B).
Proof.
  unfold edge, append_destination. destruct (decide (k = A)) as [-> | Hne].
  - rewrite lookup_insert_eq. simpl. rewrite elem_of_app, list_elem_of_singleton.
    naive_solver.
  - rewrite lookup_insert_ne by done. naive_solver.
Qed.

Lemma edge_foldl ts : ∀ tm A B,
  edge (foldl (λ tm t,
                 let tm1 := append_destination (t_source t) (t_destination t) tm in
                 if t_bidirectional t
                 then append_destination (t_destination t) (t_source t) tm1
                 else tm1) tm ts) A B
  ↔ edge tm A B ∨ declares ts A B.
Proof.
  induction ts as [|t ts IH]; intros tm A B; simpl.
  - split; [by left |]. intros [? | (t & Ht & _)]; [done |].
    by apply elem_of_nil in Ht.
  - rewrite IH. unfold declares. destruct (t_bidirectional t) eqn:Hb.
    + rewrite !edge_append_destination. split.
      * intros [[[? | [? ?]] | [? ?]] | (t' & Ht' & H)].
        -- by left.
        -- right. exists t. split; [by left | by left].
        -- right. exists t. split; [by left | right; done].
        -- right. exists t'. split; [by right | done].
      * intros [? | (t' & Ht' & H)]; [by do 3 left |].
        apply elem_of_cons in Ht' as [-> | Ht'].
        -- left. destruct H as [[? ?] | (_ & ? & ?)]; [left; by right | by right].
        -- right. by exists t'.
    + rewrite edge_append_destination. split.
      * intros [[? | [? ?]] | (t' & Ht' & H)].
        -- by left.
        -- right. exists t. split; [by left | by left].
        -- right. exists t'. split; [by right | done].
      * intros [? | (t' & Ht' & H)]; [by do 2 left |].
        apply elem_of_cons in Ht' as [-> | Ht'].
        -- left. destruct H as [[? ?] | (? & _)]; [by right | congruence].
        -- right. by exists t'.
Qed.

(** X1: the adjacency an instance is constructed with has the edge from [A]
    to [B] exactly when a declared transition goes from [A] to [B], or is
    bidirectional and goes from [B] to [A]; a state that is the source of no
    such transition has no entry that offers anything. *)
Theorem transitions_map_declares ts A B :
  edge (build_transitions_map ts) A B ↔ declares ts A B.
Proof.
  unfold build_transitions_map. rewrite edge_foldl. split; [ | by right].
  intros [H | H]; [ | done]. unfold edge in H. rewrite lookup_empty in H.
  by apply elem_of_nil in H.
Qed.

(** X2: when every declared transition is bidirectional, the adjacency is
    symmetric. *)
Theorem transitions_map_symmetric ts A B :
  (∀ t, t ∈ ts → t_bidirectional t = true) →
  edge (build_transitions_map ts) A B → edge (build_transitions_map ts) B A.
Proof.
  intros Hall. rewrite !transitions_map_declares.
  intros (t & Ht & H). exists t. split; [done |]. specialize (Hall t Ht).
  destruct H as [[? ?] | (_ & ? & ?)]; [by right | by left].
Qed.

Lemma transitions_map_symmetric_witness :
  edge (build_transitions_map
          [ mkTransition PC_ROLLING PC_STOPPED true;
            mkTransition PC_ROLLING PC_CHASING true;
            mkTransition PC_STOPPED PC_CHASING true ]) PC_CHASING PC_ROLLING.
Proof.
  apply transitions_map_symmetric.
  - intros t Ht. repeat (apply elem_of_cons in Ht as [-> | Ht]; [done |]).
    by apply elem_of_nil in Ht.
  - unfold edge. apply (bool_decide_unpack _). by vm_compute.
Defined.

(* ===================================================================== *)
(** ** What the metaclass accepts and records *)
(* ===================================================================== *)

Lemma scan_namespace_succeeds l : ∀ be rts,
  NoDup (reaction_triggers l) →
  (∀ s, s ∈ reaction_triggers l → rts !! s = None) →
  is_Some (scan_namespace l be rts).
Proof.
  induction l as [|[a|r|k] l IH]; intros be rts Hnd Hfree; simpl in *.
  - by eexists.
  - by apply IH.
  - apply NoDup_cons in Hnd as [Hnotin Hnd].
    rewrite Hfree by left. apply IH; [done |].
    intros s Hs. rewrite lookup_insert_ne; [apply Hfree; by right |].
    intros Heq. by subst s.
  - by apply IH.
Qed.

Lemma scan_namespace_broadcast l : ∀ be rts be' rts',
  scan_namespace l be rts = Some (be', rts') →
  be' = be ++ (a_name <$> filter (λ a, a_broadcast a = true) (actions_of l)).
Proof.
  induction l as [|[a|r|k] l IH]; intros be rts be' rts' Hscan; simpl in Hscan.
  - injection Hscan as <- <-. simpl. by rewrite app_nil_r.
  - rewrite (IH _ _ _ _ Hscan). simpl. rewrite filter_cons.
    destruct (a_broadcast a) eqn:Hb.
    + rewrite decide_True by done. simpl. by rewrite <- app_assoc.
    + by rewrite decide_False by done.
  - destruct (rts !! r_state r); [done |]. by rewrite (IH _ _ _ _ Hscan).
  - by rewrite (IH _ _ _ _ Hscan).
Qed.

(** X4: the declaration of a machine type fails exactly when two of its
    reactions share a trigger state; nothing else about the namespace (its
    actions, their guards, their targets, the transitions) makes it fail. *)
Theorem StateMachineMeta_new_fails_iff name ts ns :
  StateMachineMeta_new name ts ns = None ↔ ¬ NoDup (reaction_triggers ns).
Proof.
  unfold StateMachineMeta_new. split.
  - intros Hnone Hnd.
    destruct (scan_namespace_succeeds ns [] ∅ Hnd) as [[be rts] Hs].
    { intros s _. apply lookup_empty. }
    by rewrite Hs in Hnone.
  - intros Hdup. destruct (scan_namespace ns [] ∅) as [[be rts]|] eqn:Hs; [ | done].
    by destruct (scan_namespace_registered _ _ _ _ _ Hs) as (Hnd & _).
Qed.

(** X5: a declared machine type keeps the name, the transitions and the
    namespace it was given, and its [broadcast_events] is the list of the
    names of the actions declared with [broadcast=True], in the order of the
    class body. *)
Theorem StateMachineMeta_new_records name ts ns c :
  StateMachineMeta_new name ts ns = Some c →
  c_name c = name ∧ transitions c = ts ∧ c_namespace c = ns
  ∧ broadcast_events c
    = a_name <$> filter (λ a, a_broadcast a = true) (actions_of ns).
Proof.
  unfold StateMachineMeta_new.
  destruct (scan_namespace ns [] ∅) as [[be rts]|] eqn:Hs; [ | done].
  intros [= <-]. simpl. split_and!; try done.
  by rewrite (scan_namespace_broadcast _ _ _ _ _ Hs).
Qed.

Lemma StateMachineMeta_new_records_witness :
  broadcast_events TrafficLight_class = ["green"; "yellow"; "red"].
Proof.
  destruct (StateMachineMeta_new_records _ _ _ _ TrafficLight_declared)
    as (_ & _ & _ & H).
  exact H.
Defined.

(* ===================================================================== *)
(** ** Dispatch as a sequence of four updates *)
(* ===================================================================== *)

Lemma result_sat_ends_in (R : World → Prop) r :
  result_sat R r ↔ ∀ w', ends_in r w' → R w'.
Proof.
  unfold ends_in. destruct r as [w | e w |]; simpl; split.
  - by intros H w' [[= <-] | [e [=]]].
  - intros H. apply H. by left.
  - by intros H w' [[=] | [e' [= _ <-]]].
  - intros H. apply H. right. by eexists.
  - by intros _ w' [[=] | [e [=]]].
  - done.
Qed.

Section Dispatch.
Variable R : World → World → Prop.
Hypothesis R_refl : ∀ w, R w w.
Hypothesis R_trans : ∀ w1 w2 w3, R w1 w2 → R w2 w3 → R w1 w3.
Hypothesis R_print : ∀ o w, R w (print o w).
Hypothesis R_log : ∀ i ev m w,
  heap w !! i = Some m → R w (set_machine i (append_event ev m) w).
Hypothesis R_observe : ∀ i p s m w,
  heap w !! i = Some m → R w (set_machine i (set_publisher p s m) w).
Hypothesis R_move : ∀ i s m w,
  heap w !! i = Some m → s ∈ default [] (transitions_map m !! m_state m) →
  R w (set_machine i (set_state s m) w).

Lemma result_sat_R_step w w1 r :
  R w w1 → result_sat (R w1) r → result_sat (R w) r.
Proof using R_trans.
  intros H. apply result_sat_impl. intros w2. by apply R_trans.
Qed.

Lemma for_each_R {A} (f : A → World → Result) (l : list A) :
  (∀ x w, result_sat (R w) (f x w)) →
  ∀ w, result_sat (R w) (for_each f l w).
Proof using R_refl R_trans.
  intros Hf. induction l as [|x l IH]; intros w; simpl; [apply R_refl |].
  eapply result_sat_bind; [apply Hf | done |].
  intros w1 H1. eapply result_sat_R_step; [done | apply IH].
Qed.

Lemma step_R call :
  (∀ c w, result_sat (R w) (call c w)) →
  ∀ c w, result_sat (R w) (step call c w).
Proof using R_refl R_trans R_print R_log R_observe R_move.
  intros Hcall c w.
  destruct c as [i f kw | i r ev | i f b | i ev | i ev | i ev | i ev]; simpl.
  - unfold action. destruct (heap w !! i) as [m|]; [ | apply R_refl].
    destruct (get_action _ _) as [a|]; [ | apply R_refl].
    destruct (check_guard _ _ _); simpl; try apply R_print.
    eapply result_sat_bind; [apply Hcall | done |].
    intros w1 H1. eapply result_sat_R_step; [done | apply Hcall].
  - unfold reaction. destruct (heap w !! i) as [m|]; [ | apply R_refl].
    destruct (check_guard _ _ _); simpl; try apply R_print. apply Hcall.
  - unfold body. eapply result_sat_R_step; [apply R_print |].
    apply for_each_R. intros [g] w'. apply Hcall.
  - unfold publish_event. destruct (heap w !! i) as [m|]; [ | apply R_refl].
    apply for_each_R. intros j w'.
    eapply result_sat_R_step; [apply R_print | apply Hcall].
  - unfold process_event. destruct (heap w !! i) as [m|] eqn:Hi; [ | apply R_refl].
    case_decide;
      (eapply result_sat_R_step;
       [eapply R_trans; [by apply R_log | apply R_print] | apply Hcall]).
  - unfold process_internal_event.
    destruct (heap w !! i) as [m|] eqn:Hi; [ | apply R_refl].
    case_decide; [apply R_refl |].
    case_bool_decide; [ | apply R_refl].
    assert (R w (set_machine i (set_state (ev_state ev) m)
                   (print (OTransitioning i (m_state m) (ev_state ev)) w))) as He.
    { eapply R_trans; [apply R_print |]. by apply R_move. }
    case_bool_decide; [ | done].
    eapply result_sat_R_step; [apply He | apply Hcall].
  - unfold process_external_event.
    destruct (heap w !! i) as [m|] eqn:Hi; [ | apply R_refl].
    destruct (_ !! ev_state ev).
    + eapply result_sat_R_step; [by apply R_observe | apply Hcall].
    + by apply R_observe.
Qed.

Lemma run_R n : ∀ c w, result_sat (R w) (run n c w).
Proof using R_refl R_trans R_print R_log R_observe R_move.
  induction n as [|n IH]; intros c w; [done |]. by apply step_R.
Qed.
End Dispatch.

Lemma evolves_refl w : evolves w w.
Proof. intros j m Hj. exists m. by split_and!. Qed.

Lemma evolves_trans w1 w2 w3 : evolves w1 w2 → evolves w2 w3 → evolves w1 w3.
Proof.
  intros H12 H23 j m1 Hj. destruct (H12 j m1 Hj) as (m2 & Hj2 & Ht2 & Hr2).
  destruct (H23 j m2 Hj2) as (m3 & Hj3 & Ht3 & Hr3).
  exists m3. split_and!; [done | congruence |].
  rewrite Ht2 in Hr3. by etrans.
Qed.

Lemma evolves_set_machine i m m' w :
  heap w !! i = Some m →
  transitions_map m' = transitions_map m →
  rtc (edge (transitions_map m)) (m_state m) (m_state m') →
  evolves w (set_machine i m' w).
Proof.
  intros Hi Ht Hr j mj Hj. simpl. destruct (decide (i = j)) as [<- | Hne].
  - rewrite lookup_insert_eq. exists m'. by simplify_eq.
  - rewrite lookup_insert_ne by done. exists mj. by split_and!.
Qed.

Lemma run_evolves n c w : result_sat (evolves w) (run n c w).
Proof.
  apply run_R.
  - apply evolves_refl.
  - apply evolves_trans.
  - intros o w0 j m Hj. exists m. by split_and!.
  - intros i ev m w0 Hi. by apply evolves_set_machine with m.
  - intros i p s m w0 Hi. by apply evolves_set_machine with m.
  - intros i s m w0 Hi Hs. apply evolves_set_machine with m; [done | done |].
    by apply rtc_once.
Qed.

Lemma green_from_yellow_raises :
  ends_in (run 4 (CAction 0 "green" ∅) (lone_light YELLOW))
          (logged 0 (mkEvent "green" 0 GREEN (Some ∅)) (light_machine YELLOW)
             (print (OBody 0 "green") (lone_light YELLOW))).
Proof. right. exists TransitionError. vm_compute. reflexivity. Qed.

(** X6: whatever is called and however the call ends, dispatch creates and
    destroys no instance, changes no instance's type, adjacency, consumers or
    extra metadata, and only appends to the event logs and to the output. *)
Theorem dispatch_keeps_wiring n c w w' :
  ends_in (run n c w) w' →
  out w `prefix_of` out w'
  ∧ ∀ j, match heap w !! j with
         | Some m =>
             ∃ m', heap w' !! j = Some m'
                   ∧ m_class m' = m_class m
                   ∧ transitions_map m' = transitions_map m
                   ∧ consumers m' = consumers m
                   ∧ m_extra_meta m' = m_extra_meta m
                   ∧ m_events m `prefix_of` m_events m'
         | None => heap w' !! j = None
         end.
Proof.
  intros Hend. pose proof (run_extends n c w) as H.
  rewrite result_sat_ends_in in H. destruct (H w' Hend) as [Ho Hh].
  split; [done |]. intros j. specialize (Hh j).
  destruct (heap w !! j) as [m|]; inversion Hh as [? m' Hm |]; subst; [ | done].
  exists m'. by destruct Hm.
Qed.

Lemma dispatch_keeps_wiring_witness :
  out (lone_light YELLOW)
  `prefix_of` out (logged 0 (mkEvent "green" 0 GREEN (Some ∅)) (light_machine YELLOW)
                     (print (OBody 0 "green") (lone_light YELLOW))).
Proof.
  eapply (dispatch_keeps_wiring 4 (CAction 0 "green" ∅)).
  apply green_from_yellow_raises.
Defined.

(** X7: however a call ends, the state of every instance has been reached
    from the state it had before along edges of its adjacency: dispatch never
    puts an instance into a state its declared transitions do not lead to. *)
Theorem dispatch_follows_edges n c w w' j m m' :
  ends_in (run n c w) w' →
  heap w !! j = Some m → heap w' !! j = Some m' →
  rtc (edge (transitions_map m)) (m_state m) (m_state m').
Proof.
  intros Hend Hj Hj'. pose proof (run_evolves n c w) as H.
  rewrite result_sat_ends_in in H. destruct (H w' Hend j m Hj) as (m2 & H2 & _ & Hr).
  by simplify_eq.
Qed.

Lemma dispatch_follows_edges_witness :
  rtc (edge (transitions_map (light_machine YELLOW))) YELLOW YELLOW.
Proof.
  eapply (dispatch_follows_edges 4 (CAction 0 "green" ∅) (lone_light YELLOW) _ 0
            (light_machine YELLOW) (append_event _ (light_machine YELLOW))).
  - apply green_from_yellow_raises.
  - apply lone_light_lookup.
  - unfold logged. simpl. apply lookup_insert_eq.
Defined.

(** X8: an instance whose state has no outgoing edge in its adjacency stays
    in that state whatever is called, on it or on any other instance. *)
Theorem dispatch_keeps_final_state n c w w' j m m' :
  ends_in (run n c w) w' →
  heap w !! j = Some m → heap w' !! j = Some m' →
  default [] (transitions_map m !! m_state m) = [] →
  m_state m' = m_state m.
Proof.
  intros Hend Hj Hj' Hsink.
  pose proof (run_evolves n c w) as H.
  rewrite result_sat_ends_in in H.
  destruct (H w' Hend j m Hj) as (m2 & H2 & _ & Hr).
  simplify_eq. inversion Hr as [ | ? y ? Hedge _]; [done |].
  unfold edge in Hedge. rewrite Hsink in Hedge. by apply elem_of_nil in Hedge.
Qed.

Lemma external_event_ignored :
  ends_in (run 2 (CProcess 0 (mkEvent "chase" 7 PC_CHASING None)) (lone_light PC_CHASING))
          (observed 0 (mkEvent "chase" 7 PC_CHASING None) (light_machine PC_CHASING)
             (lone_light PC_CHASING)).
Proof. left. vm_compute. reflexivity. Qed.

Lemma dispatch_keeps_final_state_witness :
  m_state (set_publisher 7 PC_CHASING
             (append_event (mkEvent "chase" 7 PC_CHASING None)
                (light_machine PC_CHASING)))
  = m_state (light_machine PC_CHASING).
Proof.
  eapply (dispatch_keeps_final_state 2 _ (lone_light PC_CHASING) _ 0).
  - apply external_event_ignored.
  - apply lone_light_lookup.
  - apply observed_lookup.
  - by vm_compute.
Defined.

(* ===================================================================== *)
(** ** The one error *)
(* ===================================================================== *)

Lemma closed_world_extends w w' : extends w w' → closed_world w → closed_world w'.
Proof.
  intros [_ Hh] Hw j m' Hj. pose proof (Hh j) as Hhj. rewrite Hj in Hhj.
  inversion Hhj as [m ? Hm Hl |]; subst. symmetry in Hl.
  destruct (Hw j m Hl) as [Hc Hk]. destruct Hm as [Hcls _ _ Hcons _ _].
  rewrite Hcls, Hcons. split; [done |]. intros k Hin.
  destruct (Hk k Hin) as [mk Hmk]. specialize (Hh k). rewrite Hmk in Hh.
  inversion Hh; subst. by eexists.
Qed.

Lemma lookup_extends w w' i m :
  extends w w' → heap w !! i = Some m →
  ∃ m', heap w' !! i = Some m' ∧ m_class m' = m_class m ∧ consumers m' = consumers m.
Proof.
  intros [_ Hh] Hi. specialize (Hh i). rewrite Hi in Hh.
  inversion Hh as [? m' Hm |]; subst. exists m'. by destruct Hm.
Qed.

Lemma for_each_only_TransitionError {A} (f : A → World → Result) (l : list A)
    (I : World → Prop) :
  (∀ x w, x ∈ l → I w → raises_only_TransitionError (f x w)
                        ∧ result_sat I (f x w)) →
  ∀ w, I w → raises_only_TransitionError (for_each f l w).
Proof.
  induction l as [|x l IH]; intros Hf w Hw; simpl; [done |].
  destruct (Hf x w) as [He Hs]; [by left | done |].
  destruct (f x w) as [w1 | e w1 |]; simpl in *; [ | done | done].
  apply IH; [ | done]. intros y w' Hy. apply Hf. by right.
Qed.

Section StepError.
Variable call : Call → World → Result.
Hypothesis call_extends : ∀ c w, result_sat (extends w) (call c w).
Hypothesis call_error : ∀ c w,
  closed_world w → valid_call w c → raises_only_TransitionError (call c w).

Lemma step_only_TransitionError c w :
  closed_world w → valid_call w c → raises_only_TransitionError (step call c w).
Proof using call_extends call_error.
  intros Hw (m & Hi & Hc). pose proof (Hw _ _ Hi) as [[Hacts Hreacts] Hcons].
  destruct c as [i f kw | i r ev | i f b | i ev | i ev | i ev | i ev];
    simpl in Hi; cbn [step].
  - unfold action. rewrite Hi. destruct Hc as [a Ha]. rewrite Ha.
    destruct (check_guard _ _ _); simpl; try done.
    assert (valid_call w (CBody i f (a_body a))) as Hvb.
    { exists m. split; [done |]. apply Hacts. by apply get_action_elem in Ha as []. }
    pose proof (call_error _ _ Hw Hvb) as Hb.
    pose proof (call_extends (CBody i f (a_body a)) w) as Hext.
    destruct (call (CBody i f (a_body a)) w) as [w1 | e w1 |]; simpl in *; try done.
    apply call_error; [by eapply closed_world_extends |].
    destruct (lookup_extends _ _ _ _ Hext Hi) as (m1 & H1 & _). by exists m1.
  - unfold reaction. rewrite Hi.
    destruct (check_guard _ _ _); simpl; try done.
    apply call_error; [done |]. by exists m.
  - unfold body.
    apply (for_each_only_TransitionError _ _
             (λ w', extends w w' ∧ closed_world w')).
    + intros [g] w' Hg [Hext' Hw'].
      destruct (lookup_extends _ _ _ _ Hext' Hi) as (m1 & H1 & Hcls & _).
      split.
      * apply call_error; [done |]. exists m1. split; [done |].
        simpl. rewrite Hcls. by apply Hc.
      * pose proof (call_extends (CAction i g ∅) w') as He.
        eapply result_sat_impl; [ | apply He]. intros w2 H2.
        split; [by eapply extends_trans | by eapply closed_world_extends].
    + split; [apply extends_print |].
      eapply closed_world_extends; [apply extends_print | done].
  - unfold publish_event. rewrite Hi.
    apply (for_each_only_TransitionError _ _
             (λ w', extends w w' ∧ closed_world w')).
    + intros k w' Hk [Hext' Hw']. apply elem_of_elements in Hk.
      destruct (Hcons k Hk) as [mk Hmk].
      assert (extends w (print (OPublishing i (ev_name ev) k) w')) as Hp.
      { eapply extends_trans; [done | apply extends_print]. }
      split.
      * apply call_error.
        -- eapply closed_world_extends; [apply extends_print | done].
        -- destruct (lookup_extends _ _ _ _ Hp Hmk) as (mk' & Hk' & _).
           by exists mk'.
      * pose proof (call_extends (CProcess k ev)
                      (print (OPublishing i (ev_name ev) k) w')) as He.
        eapply result_sat_impl; [ | apply He]. intros w2 H2.
        split; [by eapply extends_trans |].
        eapply closed_world_extends; [apply H2 |].
        eapply closed_world_extends; [apply extends_print | done].
    + split; [apply extends_refl | done].
  - unfold process_event. rewrite Hi.
    assert (extends w (set_machine i (append_event ev m) w)) as He.
    { apply extends_set_machine with m; [done |].
      constructor; try done. simpl. by apply prefix_app_r. }
    case_decide; apply call_error;
      try (eapply closed_world_extends; [ | apply Hw];
           eapply extends_trans; [apply He | apply extends_print]);
      (eexists; split; [simpl; apply lookup_insert_eq | done]).
  - unfold process_internal_event. rewrite Hi.
    case_decide; [done |]. case_bool_decide; [ | done].
    case_bool_decide; [ | done].
    apply call_error.
    + eapply closed_world_extends; [ | apply Hw].
      eapply extends_trans; [apply extends_print |].
      apply extends_set_machine with m; [done | by constructor].
    + eexists. split; [simpl; apply lookup_insert_eq | done].
  - unfold process_external_event. rewrite Hi.
    destruct (reactions_to_state (m_class m) !! ev_state ev) as [r|] eqn:Hr; [ | done].
    apply call_error.
    + eapply closed_world_extends; [ | apply Hw].
      apply extends_set_machine with m; [done | by constructor].
    + eexists. split; [simpl; apply lookup_insert_eq |]. simpl. by eapply Hreacts.
Qed.
End StepError.

Lemma run_only_TransitionError n : ∀ c w,
  closed_world w → valid_call w c → raises_only_TransitionError (run n c w).
Proof.
  induction n as [|n IH]; intros c w Hw Hc; [done |].
  rewrite run_unfold. apply step_only_TransitionError; try done.
  intros c' w'. apply run_extends.
Qed.

(** X9: in a world whose machine types call only actions they declare and
    whose consumers all exist, a call has one of three outcomes, at every
    bound on the depth of the call stack: it returns, it raises a
    [TransitionError], or its chain of reactions is deeper than the bound
    (the engine has no recursion guard, so in Python a chain that never ends
    is a [RecursionError]).  No other exception is raised: guards, missing
    reactions, relays and unknown senders never raise. *)
Theorem dispatch_returns_raises_TransitionError_or_recurses n c w :
  closed_world w → valid_call w c →
  (∃ w', run n c w = Ok w')
  ∨ (∃ w', run n c w = Raised TransitionError w')
  ∨ run n c w = OutOfFuel.
Proof.
  intros Hw Hc. pose proof (run_only_TransitionError n c w Hw Hc) as H.
  destruct (run n c w) as [w' | e w' |]; simpl in H.
  - left. by eexists.
  - right. left. subst e. by eexists.
  - by do 2 right.
Qed.

Lemma closed_world_empty : closed_world empty_world.
Proof.
  intros j m Hj. change ((∅ : gmap nat Machine) !! j = Some m) in Hj.
  by rewrite lookup_empty in Hj.
Qed.

Lemma closed_world_init str_lower cls s w :
  closed_class cls → closed_world w → closed_world (init str_lower cls s w).2.
Proof.
  intros Hcls Hw j m. simpl. destruct (decide (fresh_id w = j)) as [<- | Hne].
  - rewrite lookup_insert_eq. intros [= <-]. simpl. split; [done |].
    intros k Hk. by apply not_elem_of_empty in Hk.
  - rewrite lookup_insert_ne by done. intros Hj.
    destruct (Hw j m Hj) as [Hc Hk]. split; [done |]. intros k Hin.
    destruct (Hk k Hin) as [mk Hmk].
    destruct (decide (fresh_id w = k)) as [<- | Hnk].
    + rewrite lookup_insert_eq. by eexists.
    + rewrite lookup_insert_ne by done. by eexists.
Qed.

Lemma closed_class_TrafficLight : closed_class TrafficLight_class.
Proof.
  split.
  - intros a Ha. simpl in Ha.
    repeat (apply elem_of_cons in Ha as [Ha | Ha];
            [try done; injection Ha as ->; intros g Hg; by apply elem_of_nil in Hg |]).
    by apply elem_of_nil in Ha.
  - intros s r Hr. change ((∅ : gmap State ReactionFn) !! s = Some r) in Hr.
    by rewrite lookup_empty in Hr.
Qed.

Lemma dispatch_returns_raises_TransitionError_or_recurses_witness :
  (∃ w', run 4 (CAction 0 "green" ∅) (lone_light YELLOW) = Ok w')
  ∨ (∃ w', run 4 (CAction 0 "green" ∅) (lone_light YELLOW)
           = Raised TransitionError w')
  ∨ run 4 (CAction 0 "green" ∅) (lone_light YELLOW) = OutOfFuel.
Proof.
  apply dispatch_returns_raises_TransitionError_or_recurses.
  - apply closed_world_init; [apply closed_class_TrafficLight | apply closed_world_empty].
  - exists (light_machine YELLOW). split; [apply lone_light_lookup |].
    simpl. by eexists.
Defined.

(* ===================================================================== *)
(** ** Who can change whom *)
(* ===================================================================== *)

Lemma only_touches_refl i w : only_touches i w w.
Proof. split; [apply extends_refl | done]. Qed.

Lemma only_touches_trans i w1 w2 w3 :
  only_touches i w1 w2 → only_touches i w2 w3 → only_touches i w1 w3.
Proof.
  intros [He1 H1] [He2 H2]. split; [by eapply extends_trans |].
  intros j Hj. by rewrite H2, H1.
Qed.

Lemma only_touches_print i o w : only_touches i w (print o w).
Proof. split; [apply extends_print | done]. Qed.

Lemma only_touches_set_machine i m m' w :
  heap w !! i = Some m → machine_extends m m' →
  only_touches i w (set_machine i m' w).
Proof.
  intros Hi Hm. split; [by eapply extends_set_machine |].
  intros j Hj. simpl. by rewrite lookup_insert_ne.
Qed.

Lemma silent_extends i w w' : extends w w' → silent i w → silent i w'.
Proof.
  intros Hext (m & Hi & Hb).
  destruct (lookup_extends _ _ _ _ Hext Hi) as (m' & Hi' & Hcls & _).
  exists m'. split; [done | by rewrite Hcls].
Qed.

Lemma result_sat_only_touches_step i w w1 r :
  only_touches i w w1 → result_sat (only_touches i w1) r →
  result_sat (only_touches i w) r.
Proof.
  intros H. apply result_sat_impl. intros w2. by apply only_touches_trans.
Qed.

Lemma for_each_only_touches {A} i (f : A → World → Result) (l : list A) :
  (∀ x w, silent i w → result_sat (only_touches i w) (f x w)) →
  ∀ w, silent i w → result_sat (only_touches i w) (for_each f l w).
Proof.
  intros Hf. induction l as [|x l IH]; intros w Hs; simpl;
    [apply only_touches_refl |].
  eapply result_sat_bind; [by apply Hf | done |].
  intros w1 H1. eapply result_sat_only_touches_step; [done |].
  apply IH. eapply silent_extends; [apply H1 | done].
Qed.

Section StepSilent.
Variable call : Call → World → Result.
Variable i : nat.
Hypothesis call_silent : ∀ c w,
  silent i w → call_target c = i → is_publish c = false →
  result_sat (only_touches i w) (call c w).

Lemma step_silent c w :
  silent i w → call_target c = i → is_publish c = false →
  result_sat (only_touches i w) (step call c w).
Proof using call_silent.
  intros Hs Ht Hp. pose proof Hs as (m & Hi & Hb).
  destruct c as [j f kw | j r ev | j f b | j ev | j ev | j ev | j ev];
    simpl in Ht; subst j; try done; cbn [step].
  - unfold action. rewrite Hi.
    destruct (get_action _ _) as [a|]; [ | apply only_touches_refl].
    destruct (check_guard _ _ _); simpl; try apply only_touches_print.
    eapply result_sat_bind; [by apply call_silent | done |].
    intros w1 H1. eapply result_sat_only_touches_step; [done |].
    apply call_silent; try done. eapply silent_extends; [apply H1 | done].
  - unfold reaction. rewrite Hi.
    destruct (check_guard _ _ _); simpl; try apply only_touches_print.
    by apply call_silent.
  - unfold body.
    eapply result_sat_only_touches_step; [apply only_touches_print |].
    apply for_each_only_touches.
    + intros [g] w' Hs'. by apply call_silent.
    + eapply silent_extends; [apply extends_print | done].
  - unfold process_event. rewrite Hi.
    assert (only_touches i w (set_machine i (append_event ev m) w)) as He.
    { apply only_touches_set_machine with m; [done |].
      constructor; try done. simpl. by apply prefix_app_r. }
    case_decide;
      (eapply result_sat_only_touches_step;
       [eapply only_touches_trans; [apply He | apply only_touches_print] |
        apply call_silent; try done;
        eapply silent_extends; [ | apply Hs];
        eapply extends_trans; [apply He | apply extends_print]]).
  - unfold process_internal_event. rewrite Hi.
    case_decide; [apply only_touches_refl |].
    case_bool_decide; [ | apply only_touches_refl].
    rewrite Hb. rewrite bool_decide_eq_false_2 by apply not_elem_of_nil.
    eapply only_touches_trans; [apply only_touches_print |].
    apply only_touches_set_machine with m; [done | by constructor].
  - unfold process_external_event. rewrite Hi.
    assert (only_touches i w
              (set_machine i (set_publisher (ev_source ev) (ev_state ev) m) w)) as He.
    { apply only_touches_set_machine with m; [done | by constructor]. }
    destruct (_ !! ev_state ev); [ | done].
    eapply result_sat_only_touches_step; [apply He |].
    apply call_silent; try done. eapply silent_extends; [apply He | done].
Qed.
End StepSilent.

Lemma run_silent i n : ∀ c w,
  silent i w → call_target c = i → is_publish c = false →
  result_sat (only_touches i w) (run n c w).
Proof.
  induction n as [|n IH]; intros c w Hs Ht Hp; [done |].
  rewrite run_unfold. by apply step_silent.
Qed.

(** X10: an instance whose machine type declares no broadcast action changes
    no other instance, whatever is invoked on it or delivered to it: its
    actions, its reactions and the actions they call stay inside it. *)
Theorem silent_instance_changes_no_other n c w w' i m j :
  heap w !! i = Some m →
  broadcast_events (m_class m) = [] →
  call_target c = i → is_publish c = false →
  ends_in (run n c w) w' →
  j ≠ i → heap w' !! j = heap w !! j.
Proof.
  intros Hi Hb Ht Hp Hend Hj.
  pose proof (run_silent i n c w ltac:(by exists m) Ht Hp) as H.
  rewrite result_sat_ends_in in H. destruct (H w' Hend) as [_ Hframe].
  by apply Hframe.
Qed.

(** X11: an instance that is in no other instance's consumers is left exactly
    as it was by every call on another instance, however deep the reactions
    that call sets off: state, log and publishers are untouched. *)
Theorem unsubscribed_instance_untouched n c w w' i :
  unsubscribed i w →
  call_target c ≠ i →
  ends_in (run n c w) w' →
  heap w' !! i = heap w !! i.
Proof.
  intros Hu Ht Hend. pose proof (run_frame i n c w Hu Ht) as H.
  rewrite result_sat_ends_in in H. by destruct (H w' Hend) as [_ ?].
Qed.

(* ===================================================================== *)
(** ** Relays in particular wirings *)
(* ===================================================================== *)

(** X12: an instance that is its own only consumer receives the relay of its
    own broadcast transition as an event of its own: the call returns, the
    relay is logged after the event, the state is the target, and neither its
    publishers nor any other instance change; no reaction runs. *)
Theorem relay_to_self n i ev w m :
  heap w !! i = Some m →
  consumers m = {[i]} →
  ev_source ev = i →
  m_state m ≠ ev_state ev →
  ev_state ev ∈ default [] (transitions_map m !! m_state m) →
  ev_name ev ∈ broadcast_events (m_class m) →
  ∃ w', run (5 + n) (CProcess i ev) w = Ok w'
        ∧ state_of i w' = Some (ev_state ev)
        ∧ events_of i w' = Some (m_events m ++ [ev; relay_of i ev])
        ∧ (publishers <$> heap w' !! i) = Some (publishers m)
        ∧ (∀ j, j ≠ i → heap w' !! j = heap w !! j)
        ∧ out w' = out w ++ [ OProcessing i (ev_name ev);
                              OTransitioning i (m_state m) (ev_state ev);
                              OPublishing i (ev_name ev) i;
                              OProcessing i (ev_name ev) ].
Proof.
  intros Hi Hc Hs Hne Hedge Hb.
  change (5 + n) with (S (S (S (S (S n))))).
  rewrite (run_process_internal _ _ _ _ m) by done.
  rewrite decide_False by done. rewrite !bool_decide_eq_true_2 by done.
  erewrite run_publish; [ | unfold moved; simpl; apply lookup_insert_eq].
  cbn [consumers set_state append_event]. rewrite Hc, elements_singleton.
  cbn [for_each].
  erewrite run_process_internal;
    [ | unfold moved; simpl; apply lookup_insert_eq | done].
  rewrite decide_True by done. cbn [bind].
  eexists. split; [done |]. unfold state_of, events_of, logged, moved. simpl.
  rewrite !lookup_insert_eq. simpl. split_and!; try done.
  - by rewrite <- app_assoc.
  - intros j Hj. by rewrite !lookup_insert_ne.
  - by rewrite <- !app_assoc.
Qed.

Lemma relay_to_self_witness :
  ∃ w', run 5 (CProcess 0 (mkEvent "red" 0 RED None)) (watched_light YELLOW) = Ok w'
        ∧ state_of 0 w' = Some RED.
Proof.
  assert (RED ∈ default [] (transitions_map (add_consumer 0 (light_machine YELLOW))
                              !! YELLOW)) as Hedge
    by (apply (bool_decide_unpack _); by vm_compute).
  assert ("red" ∈ broadcast_events (m_class (add_consumer 0 (light_machine YELLOW))))
    as Hb by (apply (bool_decide_unpack _); by vm_compute).
  assert (consumers (add_consumer 0 (light_machine YELLOW)) = {[0]}) as Hc
    by (simpl; set_solver).
  destruct (relay_to_self 0 0 (mkEvent "red" 0 RED None) (watched_light YELLOW)
              (add_consumer 0 (light_machine YELLOW)) eq_refl Hc eq_refl
              ltac:(done) Hedge Hb)
    as (w' & Hrun & Hst & _).
  by exists w'.
Defined.

(** X13: after a transition by an action that is not broadcast, a subscriber
    still holds the state the publisher had before: its snapshot is stale,
    and its guards keep seeing the old state. *)
Theorem non_broadcast_leaves_snapshot_stale n p ev w mp a ma :
  heap w !! p = Some mp →
  ev_source ev = p →
  m_state mp ≠ ev_state ev →
  ev_state ev ∈ default [] (transitions_map mp !! m_state mp) →
  ev_name ev ∉ broadcast_events (m_class mp) →
  a ≠ p →
  heap w !! a = Some ma →
  publishers ma !! p = Some (m_state mp) →
  ∃ w', run (S (S n)) (CProcess p ev) w = Ok w'
        ∧ state_of p w' = Some (ev_state ev)
        ∧ heap w' !! a = Some ma
        ∧ publishers ma !! p ≠ Some (ev_state ev)
        ∧ m_state mp ∈ states_of ma.
Proof.
  intros Hp Hs Hne Hedge Hnb Hap Ha Hsnap.
  exists (moved p ev mp w). split_and!.
  - rewrite (run_process_internal _ _ _ _ mp) by done.
    rewrite decide_False by done. rewrite bool_decide_eq_true_2 by done.
    by rewrite bool_decide_eq_false_2.
  - apply state_of_moved.
  - unfold moved. simpl. by rewrite lookup_insert_ne.
  - rewrite Hsnap. congruence.
  - apply elem_of_states_of. right. by exists p.
Qed.

Lemma non_broadcast_leaves_snapshot_stale_witness :
  ∃ w', run 2 (CProcess 1 (mkEvent "switch" 1 RED None)) observing_lights = Ok w'
        ∧ state_of 1 w' = Some RED
        ∧ heap w' !! 0 = Some (set_publisher 1 YELLOW (light_machine RED)).
Proof.
  destruct two_lights_lookup as [H0 H1].
  assert (heap observing_lights !! 1 = Some (light_machine YELLOW)) as Hp.
  { unfold observing_lights. simpl. by rewrite lookup_insert_ne. }
  assert (heap observing_lights !! 0
          = Some (set_publisher 1 YELLOW (light_machine RED))) as Ha.
  { unfold observing_lights. simpl. by rewrite lookup_insert_eq. }
  assert (RED ∈ default [] (transitions_map (light_machine YELLOW) !! YELLOW))
    as Hedge by (apply (bool_decide_unpack _); by vm_compute).
  assert ("switch" ∉ broadcast_events (m_class (light_machine YELLOW))) as Hnb
    by (apply (bool_decide_unpack _); by vm_compute).
  destruct (non_broadcast_leaves_snapshot_stale 0 1 (mkEvent "switch" 1 RED None)
              observing_lights (light_machine YELLOW) 0
              (set_publisher 1 YELLOW (light_machine RED))
              Hp eq_refl ltac:(done) Hedge Hnb ltac:(done) Ha
              ltac:(simpl; apply lookup_insert_eq))
    as (w' & Hrun & Hst & Hl & _).
  by exists w'.
Defined.

(** Relays to consumers that have no reaction for the new state. *)
Lemma fan_out_without_reaction n i ev (l : list nat) : ∀ w,
  NoDup l →
  ev_source ev = i →
  i ∉ l →
  (∀ j, j ∈ l → ∃ mj, heap w !! j = Some mj
                      ∧ reactions_to_state (m_class mj) !! ev_state ev = None) →
  ∃ w', for_each (λ k w1, run (S (S n)) (CProcess k ev)
                              (print (OPublishing i (ev_name ev) k) w1)) l w = Ok w'
        ∧ (∀ j mj, j ∈ l → heap w !! j = Some mj →
             heap w' !! j
             = Some (set_publisher i (ev_state ev) (append_event ev mj)))
        ∧ (∀ j, j ∉ l → heap w' !! j = heap w !! j).
Proof.
  induction l as [|k l IH]; intros w Hnd Hs Hi Hall.
  - exists w. split_and!; [done | | done]. intros j mj Hj. by apply elem_of_nil in Hj.
  - apply NoDup_cons in Hnd as [Hk Hnd]. apply not_elem_of_cons in Hi as [Hik Hil].
    destruct (Hall k) as (mk & Hmk & Hrk); [by left |]. cbn [for_each].
    rewrite (run_process_external _ _ _ _ mk); [ | done | by rewrite Hs].
    rewrite Hrk. cbn [bind].
    set (w1 := observed k ev mk (print (OPublishing i (ev_name ev) k) w)).
    assert (∀ j, j ≠ k → heap w1 !! j = heap w !! j) as Hframe.
    { intros j Hj. unfold w1, observed. simpl. by rewrite lookup_insert_ne. }
    assert (heap w1 !! k = Some (set_publisher i (ev_state ev) (append_event ev mk)))
      as Hk1.
    { unfold w1. rewrite observed_lookup. by rewrite Hs. }
    destruct (IH w1 Hnd Hs Hil) as (w' & Hrun & Hdel & Hrest).
    { intros j Hj. destruct (Hall j) as (mj & Hmj & Hrj); [by right |].
      exists mj. split; [ | done]. rewrite Hframe; [done |]. by intros ->. }
    exists w'. split_and!; [done | |].
    + intros j mj Hj Hmj. apply elem_of_cons in Hj as [-> | Hj].
      * rewrite Hrest by done. by simplify_eq.
      * apply Hdel; [done |]. rewrite Hframe; [done |]. by intros ->.
    + intros j Hj. apply not_elem_of_cons in Hj as [Hjk Hjl].
      rewrite Hrest by done. by apply Hframe.
Qed.

(** X14: when no consumer has a reaction for the new state, a broadcast
    transition returns after one pass: the publisher is in the new state, and
    each consumer has exactly one more event in its log (the relay), holds
    the new state as its snapshot of the publisher and is otherwise as it
    was; instances that are not consumers are untouched. *)
Theorem relay_without_reaction n i ev w m :
  heap w !! i = Some m →
  ev_source ev = i →
  m_state m ≠ ev_state ev →
  ev_state ev ∈ default [] (transitions_map m !! m_state m) →
  ev_name ev ∈ broadcast_events (m_class m) →
  i ∉ consumers m →
  (∀ j, j ∈ consumers m →
        ∃ mj, heap w !! j = Some mj
              ∧ reactions_to_state (m_class mj) !! ev_state ev = None) →
  ∃ w', run (5 + n) (CProcess i ev) w = Ok w'
        ∧ state_of i w' = Some (ev_state ev)
        ∧ (∀ j mj, j ∈ consumers m → heap w !! j = Some mj →
             heap w' !! j
             = Some (set_publisher i (ev_state ev) (append_event (relay_of i ev) mj)))
        ∧ (∀ j, j ∉ consumers m → j ≠ i → heap w' !! j = heap w !! j).
Proof.
  intros Hi Hs Hne Hedge Hb Hself Hall.
  change (5 + n) with (S (S (S (S (S n))))).
  rewrite (run_process_internal _ _ _ _ m) by done.
  rewrite decide_False by done. rewrite !bool_decide_eq_true_2 by done.
  erewrite run_publish; [ | unfold moved; simpl; apply lookup_insert_eq].
  cbn [consumers set_state append_event].
  assert (∀ j, j ≠ i → heap (moved i ev m w) !! j = heap w !! j) as Hframe.
  { intros j Hj. unfold moved. simpl. by rewrite lookup_insert_ne. }
  destruct (fan_out_without_reaction n i (relay_of i ev) (elements (consumers m))
              (moved i ev m w)) as (w' & Hrun & Hdel & Hrest).
  - apply NoDup_elements.
  - done.
  - by rewrite elem_of_elements.
  - intros j Hj. apply elem_of_elements in Hj.
    destruct (Hall j Hj) as (mj & Hmj & Hrj). exists mj. split; [ | done].
    rewrite Hframe; [done |]. by intros ->.
  - exists w'. split_and!.
    + exact Hrun.
    + unfold state_of. rewrite Hrest by (by rewrite elem_of_elements).
      unfold moved. simpl. by rewrite lookup_insert_eq.
    + intros j mj Hj Hmj. apply (Hdel j mj); [by apply elem_of_elements |].
      rewrite Hframe; [done |]. by intros ->.
    + intros j Hj Hji. rewrite Hrest by (by rewrite elem_of_elements).
      by apply Hframe.
Qed.

Lemma relay_without_reaction_witness :
  ∃ w', run 5 (CProcess 0 (mkEvent "green" 0 GREEN None)) chained_lights = Ok w'
        ∧ state_of 0 w' = Some GREEN
        ∧ heap w' !! 1
          = Some (set_publisher 0 GREEN
                    (append_event (mkEvent "green" 0 GREEN None)
                       (light_machine YELLOW))).
Proof.
  destruct two_lights_lookup as [H0 H1].
  assert (heap chained_lights !! 1 = Some (light_machine YELLOW)) as Hc1.
  { unfold chained_lights. simpl. by rewrite lookup_insert_ne. }
  assert (GREEN ∈ default [] (transitions_map (add_consumer 1 (light_machine RED))
                                !! RED)) as Hedge
    by (apply (bool_decide_unpack _); by vm_compute).
  assert ("green" ∈ broadcast_events (m_class (add_consumer 1 (light_machine RED))))
    as Hb by (apply (bool_decide_unpack _); by vm_compute).
  destruct (relay_without_reaction 0 0 (mkEvent "green" 0 GREEN None) chained_lights
              (add_consumer 1 (light_machine RED))
              ltac:(unfold chained_lights; simpl; apply lookup_insert_eq)
              eq_refl ltac:(done) Hedge Hb)
    as (w' & Hrun & Hst & Hdel & _).
  - simpl. set_solver.
  - intros j Hj. simpl in Hj. assert (j = 1) as -> by set_solver.
    exists (light_machine YELLOW). split; [done | done].
  - exists w'. split_and!; [done | done |].
    apply (Hdel 1 (light_machine YELLOW)); [simpl; set_solver | done].
Defined.

Lemma two_lights_heap :
  heap two_lights = <[1 := light_machine YELLOW]> {[0 := light_machine RED]}.
Proof. vm_compute. reflexivity. Qed.

Lemma unsubscribed_instance_untouched_witness :
  ∃ w', ends_in (run 4 (CAction 1 "red" ∅) two_lights) w'
        ∧ heap w' !! 0 = heap two_lights !! 0.
Proof.
  assert (unsubscribed 0 two_lights) as Hu.
  { intros j m Hj Hne. rewrite two_lights_heap in Hj.
    rewrite lookup_insert in Hj. case_decide; simplify_eq.
    - simpl. set_solver.
    - rewrite lookup_singleton in Hj. case_decide; simplify_eq. }
  assert (∃ w', ends_in (run 4 (CAction 1 "red" ∅) two_lights) w') as [w' Hend].
  { eexists. left. vm_compute. reflexivity. }
  exists w'. split; [done |].
  by apply (unsubscribed_instance_untouched 4 (CAction 1 "red" ∅)).
Defined.

Lemma light_and_gate_lookup :
  heap light_and_gate !! 1 = Some (gate_machine CLOSED).
Proof. vm_compute. reflexivity. Qed.

Lemma silent_instance_changes_no_other_witness :
  ∃ w', ends_in (run 8 (CProcess 1 (mkEvent "green" 0 GREEN None)) light_and_gate) w'
        ∧ heap w' !! 0 = heap light_and_gate !! 0.
Proof.
  assert (∃ w', ends_in (run 8 (CProcess 1 (mkEvent "green" 0 GREEN None))
                           light_and_gate) w') as [w' Hend].
  { eexists. right. eexists. vm_compute. reflexivity. }
  exists w'. split; [done |].
  by apply (silent_instance_changes_no_other 8
              (CProcess 1 (mkEvent "green" 0 GREEN None)) light_and_gate w' 1
              (gate_machine CLOSED) 0 light_and_gate_lookup eq_refl eq_refl eq_refl
              Hend).
Defined.

(* ===================================================================== *)
(** ** Wiring several instances *)
(* ===================================================================== *)

Lemma register_out i cs : ∀ w m,
  heap w !! i = Some m →
  ∃ w', register i cs w = Ok w' ∧ out w' = out w ++ (ORegistering i <$> cs).
Proof.
  unfold register. induction cs as [|c cs IH]; intros w m Hi; simpl.
  - exists w. by rewrite app_nil_r.
  - rewrite Hi. simpl.
    edestruct (IH (set_machine i (add_consumer c m) (print (ORegistering i c) w)))
      as (w' & Hrun & Hout).
    { simpl. by rewrite lookup_insert_eq. }
    exists w'. split; [done |]. rewrite Hout. simpl. by rewrite <- app_assoc.
Qed.

(** X15: [register] returns for every list of consumers; afterwards the
    consumers are the old ones together with the given ones, whatever their
    order and however often one is repeated; state, publishers and log of the
    instance and every other instance are unchanged; one line is printed per
    element of the list, repeated or not. *)
Theorem register_adds_exactly i cs w m :
  heap w !! i = Some m →
  ∃ w' m', register i cs w = Ok w'
    ∧ heap w' = <[i := m']> (heap w)
    ∧ consumers m' = list_to_set cs ∪ consumers m
    ∧ m_state m' = m_state m
    ∧ publishers m' = publishers m
    ∧ m_events m' = m_events m
    ∧ out w' = out w ++ (ORegistering i <$> cs).
Proof.
  intros Hi.
  destruct (register_spec i cs w m Hi) as (w' & m' & Hrun & Hh & Hc & Hs & Hp & He).
  destruct (register_out i cs w m Hi) as (w2 & Hrun2 & Hout).
  exists w', m'. split_and!; try done. congruence.
Qed.

Lemma register_adds_exactly_witness :
  ∃ w' m', register 0 [1; 1] two_lights = Ok w'
    ∧ heap w' = <[0 := m']> (heap two_lights)
    ∧ consumers m' = list_to_set [1; 1] ∪ consumers (light_machine RED).
Proof.
  destruct (register_adds_exactly 0 [1; 1] two_lights (light_machine RED)
              (proj1 two_lights_lookup)) as (w' & m' & H1 & H2 & H3 & _).
  by exists w', m'.
Defined.

Lemma subscribe_cons a p ps w ma mp :
  heap w !! a = Some ma → heap w !! p = Some mp →
  subscribe a (p :: ps) w =
  bind (register p [a] (set_machine a (set_publisher p (m_state mp) ma) w))
       (subscribe a ps).
Proof. intros Ha Hp. unfold subscribe. simpl. by rewrite Ha, Hp. Qed.

Lemma subscribe_spec a ps : ∀ w ma,
  heap w !! a = Some ma →
  a ∉ ps →
  (∀ p, p ∈ ps → is_Some (heap w !! p)) →
  ∃ w' ma', subscribe a ps w = Ok w'
    ∧ heap w' !! a = Some ma'
    ∧ consumers ma' = consumers ma
    ∧ m_state ma' = m_state ma
    ∧ m_events ma' = m_events ma
    ∧ (∀ p, publishers ma' !! p =
            if decide (p ∈ ps) then m_state <$> heap w !! p
            else publishers ma !! p)
    ∧ (∀ p mp, p ∈ ps → heap w !! p = Some mp →
         ∃ mp', heap w' !! p = Some mp'
                ∧ consumers mp' = {[a]} ∪ consumers mp
                ∧ m_state mp' = m_state mp
                ∧ publishers mp' = publishers mp
                ∧ m_events mp' = m_events mp)
    ∧ (∀ j, j ≠ a → j ∉ ps → heap w' !! j = heap w !! j).
Proof.
  induction ps as [|p ps IH]; intros w ma Ha Hnotin Hex.
  - exists w, ma. split_and!; try done.
    intros p mp Hp. by apply elem_of_nil in Hp.
  - apply not_elem_of_cons in Hnotin as [Hap Hnotin].
    destruct (Hex p) as [mp Hp]; [by left |].
    rewrite (subscribe_cons a p ps w ma mp) by done.
    set (ma1 := set_publisher p (m_state mp) ma).
    set (w0 := set_machine a ma1 w).
    assert (heap w0 !! p = Some mp) as Hp0.
    { unfold w0. simpl. by rewrite lookup_insert_ne. }
    destruct (register_spec p [a] w0 mp Hp0)
      as (w1 & mp1 & Hreg & Hh1 & Hc1 & Hs1 & Hpub1 & Hev1).
    rewrite Hreg. cbn [bind].
    assert (heap w1 !! a = Some ma1) as Ha1.
    { rewrite Hh1, lookup_insert_ne by done. unfold w0. simpl.
      by rewrite lookup_insert_eq. }
    assert (heap w1 !! p = Some mp1) as Hp1 by (rewrite Hh1; apply lookup_insert_eq).
    assert (∀ j, j ≠ a → j ≠ p → heap w1 !! j = heap w !! j) as Hother.
    { intros j Hja Hjp. rewrite Hh1, lookup_insert_ne by done. unfold w0. simpl.
      by rewrite lookup_insert_ne. }
    assert (∀ j, j ≠ a → m_state <$> heap w1 !! j = m_state <$> heap w !! j) as Hstate.
    { intros j Hja. destruct (decide (j = p)) as [-> | Hjp].
      - rewrite Hp1, Hp. simpl. by rewrite Hs1.
      - by rewrite Hother. }
    destruct (IH w1 ma1 Ha1 Hnotin) as (w' & ma' & Hrun & Ha' & Hc & Hs & He & Hpub & Hps & Hrest).
    { intros q Hq. destruct (decide (q = p)) as [-> | Hqp]; [by eexists |].
      rewrite Hother; [apply Hex; by right | | done]. intros ->. done. }
    exists w', ma'. split_and!; try done.
    + intros q. rewrite Hpub. destruct (decide (q ∈ ps)) as [Hq | Hq].
      * rewrite decide_True by (by right). apply Hstate. by intros ->.
      * unfold ma1. simpl. destruct (decide (q = p)) as [-> | Hqp].
        -- rewrite decide_True by (by left). rewrite lookup_insert_eq. by rewrite Hp.
        -- rewrite lookup_insert_ne by done.
           rewrite decide_False; [done |]. by intros [-> | ?]%elem_of_cons.
    + intros q mq Hq Hmq. destruct (decide (q ∈ ps)) as [Hin | Hnin].
      * destruct (decide (q = p)) as [-> | Hqp].
        -- simplify_eq. destruct (Hps p mp1 Hin Hp1) as (mp' & ? & Hc' & Hs' & Hp' & He').
           exists mp'. split_and!; try congruence. rewrite Hc', Hc1. set_solver.
        -- apply Hps; [done |]. rewrite Hother; [done | | done]. by intros ->.
      * apply elem_of_cons in Hq as [-> | Hq]; [ | done]. simplify_eq.
        exists mp1. split_and!; try done.
        -- by rewrite Hrest.
        -- rewrite Hc1. set_solver.
    + intros j Hja Hj. apply not_elem_of_cons in Hj as [Hjp Hj].
      rewrite Hrest by done. by apply Hother.
Qed.

(** X16: subscribing to several existing publishers returns; the subscriber
    then holds, for each of them, the state it had at that moment and keeps
    its other snapshots; each publisher has the subscriber among its
    consumers and is otherwise unchanged, as is every instance not named. *)
Theorem subscribe_to_many a ps w ma :
  heap w !! a = Some ma →
  a ∉ ps →
  (∀ p, p ∈ ps → is_Some (heap w !! p)) →
  ∃ w' ma', subscribe a ps w = Ok w'
    ∧ heap w' !! a = Some ma'
    ∧ consumers ma' = consumers ma
    ∧ m_state ma' = m_state ma
    ∧ m_events ma' = m_events ma
    ∧ (∀ p, publishers ma' !! p =
            if decide (p ∈ ps) then m_state <$> heap w !! p
            else publishers ma !! p)
    ∧ (∀ p mp, p ∈ ps → heap w !! p = Some mp →
         ∃ mp', heap w' !! p = Some mp'
                ∧ consumers mp' = {[a]} ∪ consumers mp
                ∧ m_state mp' = m_state mp
                ∧ publishers mp' = publishers mp
                ∧ m_events mp' = m_events mp)
    ∧ (∀ j, j ≠ a → j ∉ ps → heap w' !! j = heap w !! j).
Proof. apply subscribe_spec. Qed.

Lemma subscribe_to_many_witness :
  ∃ w' ma', subscribe 1 [0; 0] two_lights = Ok w'
    ∧ heap w' !! 1 = Some ma'
    ∧ publishers ma' !! 0 = Some RED.
Proof.
  destruct two_lights_lookup as [H0 H1].
  destruct (subscribe_to_many 1 [0; 0] two_lights (light_machine YELLOW) H1)
    as (w' & ma' & Hrun & Ha & _ & _ & _ & Hpub & _).
  - set_solver.
  - intros p Hp. assert (p = 0) as -> by set_solver. by eexists.
  - exists w', ma'. split_and!; [done | done |].
    rewrite Hpub, decide_True by set_solver. by rewrite H0.
Defined.

(* ===================================================================== *)
(** ** Snapshots and metadata *)
(* ===================================================================== *)

Lemma remembers_set_machine i m m' w :
  heap w !! i = Some m →
  dom (publishers m) ⊆ dom (publishers m') →
  remembers w (set_machine i m' w).
Proof.
  intros Hi Hd j mj Hj. simpl. destruct (decide (i = j)) as [<- | Hne].
  - rewrite lookup_insert_eq. exists m'. by simplify_eq.
  - rewrite lookup_insert_ne by done. by exists mj.
Qed.

Lemma run_remembers n c w : result_sat (remembers w) (run n c w).
Proof.
  apply run_R.
  - intros w0 j m Hj. by exists m.
  - intros w1 w2 w3 H12 H23 j m1 Hj. destruct (H12 j m1 Hj) as (m2 & Hj2 & Hd2).
    destruct (H23 j m2 Hj2) as (m3 & Hj3 & Hd3). exists m3. split; [done |].
    by etrans.
  - intros o w0 j m Hj. by exists m.
  - intros i ev m w0 Hi. by apply remembers_set_machine with m.
  - intros i p s m w0 Hi. apply remembers_set_machine with m; [done |].
    simpl. rewrite dom_insert_L. set_solver.
  - intros i s m w0 Hi Hs. by apply remembers_set_machine with m.
Qed.

(** X17: dispatch never removes an entry of [publishers]: an instance that
    has a snapshot of a publisher still has one, possibly of another state,
    however the call ends. *)
Theorem publishers_are_never_forgotten n c w w' j m p s :
  ends_in (run n c w) w' →
  heap w !! j = Some m →
  publishers m !! p = Some s →
  ∃ m' s', heap w' !! j = Some m' ∧ publishers m' !! p = Some s'.
Proof.
  intros Hend Hj Hp. pose proof (run_remembers n c w) as H.
  rewrite result_sat_ends_in in H. destruct (H w' Hend j m Hj) as (m' & Hj' & Hd).
  assert (p ∈ dom (publishers m')) as Hin.
  { apply Hd. apply elem_of_dom. by eexists. }
  apply elem_of_dom in Hin as [s' Hs']. by exists m', s'.
Qed.

Lemma publishers_are_never_forgotten_witness :
  ∃ w' m' s', ends_in (run 2 (CProcess 1 (mkEvent "switch" 1 RED None))
                         observing_lights) w'
              ∧ heap w' !! 0 = Some m' ∧ publishers m' !! 1 = Some s'.
Proof.
  assert (∃ w', ends_in (run 2 (CProcess 1 (mkEvent "switch" 1 RED None))
                           observing_lights) w') as [w' Hend].
  { eexists. left. vm_compute. reflexivity. }
  destruct (publishers_are_never_forgotten 2 _ observing_lights w' 0
              (set_publisher 1 YELLOW (light_machine RED)) 1 YELLOW Hend)
    as (m' & s' & Hm' & Hs').
  - unfold observing_lights. simpl. apply lookup_insert_eq.
  - simpl. apply lookup_insert_eq.
  - by exists w', m', s'.
Defined.




